(** * Shutdown-veto handshake of the workbench lifecycle service

    A shallow embedding of
    [src/vs/workbench/services/lifecycle/electron-browser/lifecycleService.ts]:
    the [LifecycleService] constructor (startup-kind classification), the
    ['vscode:beforeUnload'] handler installed by [_registerListeners], and
    the veto aggregation of [onBeforeUnload].

    Promises are modelled by handles into a table of settlements; the
    service reacts to two kinds of events, the arrival of a shutdown
    request and the settlement of a deferred objection. *)

From Stdlib Require Import ZArith NArith Decimal DecimalString DecimalPos DecimalZ Ascii String.
From stdpp Require Import gmap strings list.

Local Open Scope string_scope.
Local Open Scope list_scope.

(** ** Enumerations *)

(** Modelled from the spec: the declaration of [ShutdownReason] lives in
    [vs/platform/lifecycle/common/lifecycle], which is not part of the
    sources at hand.  The data model lists Quit, WindowClose, WindowReload
    and WindowLoad; the service itself names [RELOAD] and [LOAD]. *)
Inductive ShutdownReason := CLOSE | QUIT | RELOAD | LOAD.

(** Modelled from the spec: the number each member of the enumeration is
    at run time (a TypeScript numeric enum); what follows relies only on
    these being distinct integers. *)
Definition reason_value (r : ShutdownReason) : Z :=
  match r with
  | CLOSE => 1
  | QUIT => 2
  | RELOAD => 3
  | LOAD => 4
  end.

(** Modelled from the spec: [StartupKind], declared next to
    [ShutdownReason]. *)
Inductive StartupKind := NewWindow | ReloadedWindow | ReopenedWindow.

Inductive Severity := Ignore | Info | Warning | Error.

Inductive StorageScope := GLOBAL | WORKSPACE.

#[global] Instance ShutdownReason_eq_dec : EqDecision ShutdownReason.
Proof. solve_decision. Defined.
#[global] Instance StartupKind_eq_dec : EqDecision StartupKind.
Proof. solve_decision. Defined.
#[global] Instance Severity_eq_dec : EqDecision Severity.
Proof. solve_decision. Defined.

(** ** Numbers as the storage round trip sees them *)

(** What [getInteger] can hand back: [undefined] for a missing key, [NaN]
    when the stored text does not start with a number, an integer
    otherwise. *)
Inductive JsNumber := JUndefined | JNaN | JInt (z : Z).

(** [x === y] on such values; [NaN] differs from everything, itself
    included. *)
Definition strict_eq (x y : JsNumber) : bool :=
  match x, y with
  | JUndefined, JUndefined => true
  | JInt a, JInt b => Z.eqb a b
  | _, _ => false
  end.

(** [JSON.stringify] on an integral number: its decimal numeral, with a
    leading minus sign below zero. *)
Definition JSON_stringify (z : Z) : string :=
  NilZero.string_of_int (Z.to_int z).

Definition is_whitespace (c : ascii) : bool :=
  let n := N_of_ascii c in
  ((9 <=? n) && (n <=? 13) || (n =? 32))%N.

Definition digit_value (c : ascii) : option N :=
  let n := N_of_ascii c in
  if ((48 <=? n) && (n <=? 57))%N then Some (n - 48)%N else None.

Fixpoint skip_whitespace (s : string) : string :=
  match s with
  | String c s' => if is_whitespace c then skip_whitespace s' else s
  | EmptyString => s
  end.

(** The longest prefix of decimal digits, accumulated most significant
    digit first; [seen] records whether any digit was consumed. *)
Fixpoint parse_digits (s : string) (seen : bool) (acc : N) : option N :=
  match s with
  | String c s' =>
      match digit_value c with
      | Some d => parse_digits s' true (10 * acc + d)%N
      | None => if seen then Some acc else None
      end
  | EmptyString => if seen then Some acc else None
  end.

(** [parseInt(s, 10)]. *)
Definition parseInt (s : string) : JsNumber :=
  match skip_whitespace s with
  | String "-" s' =>
      match parse_digits s' false 0 with
      | Some n => JInt (- Z.of_N n)
      | None => JNaN
      end
  | String "+" s' =>
      match parse_digits s' false 0 with
      | Some n => JInt (Z.of_N n)
      | None => JNaN
      end
  | s' =>
      match parse_digits s' false 0 with
      | Some n => JInt (Z.of_N n)
      | None => JNaN
      end
  end.

(** The number a decimal numeral denotes when it continues the digits
    already accumulated in [acc]. *)
Fixpoint uint_acc (d : Decimal.uint) (acc : N) : N :=
  match d with
  | Decimal.Nil => acc
  | Decimal.D0 l => uint_acc l (10 * acc + 0)
  | Decimal.D1 l => uint_acc l (10 * acc + 1)
  | Decimal.D2 l => uint_acc l (10 * acc + 2)
  | Decimal.D3 l => uint_acc l (10 * acc + 3)
  | Decimal.D4 l => uint_acc l (10 * acc + 4)
  | Decimal.D5 l => uint_acc l (10 * acc + 5)
  | Decimal.D6 l => uint_acc l (10 * acc + 6)
  | Decimal.D7 l => uint_acc l (10 * acc + 7)
  | Decimal.D8 l => uint_acc l (10 * acc + 8)
  | Decimal.D9 l => uint_acc l (10 * acc + 9)
  end%N.

(** ** The storage service *)

(** Modelled from the spec: the storage service is an external
    collaborator ([vs/platform/storage/common/storage]), a key/value store
    of strings with [get], [set] and [remove] per scope; the workspace
    scope outlives the window. *)
Record Storage := mkStorage {
  globalStorage : gmap string string;
  workspaceStorage : gmap string string
}.

(** Modelled from the spec: the map behind a scope. *)
Definition scoped (scope : StorageScope) (st : Storage) : gmap string string :=
  match scope with
  | GLOBAL => globalStorage st
  | WORKSPACE => workspaceStorage st
  end.

(** Modelled from the spec: [set(key, value, scope)]; the service passes
    the text of the reason. *)
Definition store (key value : string) (scope : StorageScope) (st : Storage) : Storage :=
  match scope with
  | GLOBAL => mkStorage (<[key := value]> (globalStorage st)) (workspaceStorage st)
  | WORKSPACE => mkStorage (globalStorage st) (<[key := value]> (workspaceStorage st))
  end.

(** Modelled from the spec: [remove(key, scope)]. *)
Definition remove (key : string) (scope : StorageScope) (st : Storage) : Storage :=
  match scope with
  | GLOBAL => mkStorage (delete key (globalStorage st)) (workspaceStorage st)
  | WORKSPACE => mkStorage (globalStorage st) (delete key (workspaceStorage st))
  end.

(** Modelled from the spec: [get(key, scope)], absent when the key is not
    stored. *)
Definition get (key : string) (scope : StorageScope) (st : Storage) : option string :=
  scoped scope st !! key.

(** Modelled from the spec: [getInteger(key, scope)] reads the stored text
    back as a number ([parseInt] in base 10), [undefined] when the key is
    not stored. *)
Definition getInteger (key : string) (scope : StorageScope) (st : Storage) : JsNumber :=
  match get key scope st with
  | Some value => parseInt value
  | None => JUndefined
  end.

Definition _lastShutdownReasonKey : string := "lifecyle.lastShutdownReason".

(** ** Construction: the startup kind *)

(** The [if]/[else if]/[else] chain of the constructor on the value read
    back from the store. *)
Definition startupKindOf (lastShutdownReason : JsNumber) : StartupKind :=
  if strict_eq lastShutdownReason (JInt (reason_value RELOAD)) then ReloadedWindow
  else if strict_eq lastShutdownReason (JInt (reason_value LOAD)) then ReopenedWindow
  else NewWindow.

(** The classifier as the specification words it, on an optional prior
    reason. *)
Definition classify_spec (priorReason : option ShutdownReason) : StartupKind :=
  match priorReason with
  | None => NewWindow
  | Some RELOAD => ReloadedWindow
  | Some LOAD => ReopenedWindow
  | Some _ => NewWindow
  end.

(** ** Promises, objections and the service *)

Section Handshake.

(** Failures of deferred objections are opaque to the service; it only
    turns them into text with [toErrorMessage]
    ([vs/base/common/errorMessage]), taken as a parameter here. *)
Context {JsError : Type} (toErrorMessage : JsError -> string).

(** Modelled from the spec: [TPromise] ([vs/base/common/winjs.base]) is
    not among the sources.  A deferred objection yields a boolean or
    fails; this is how such a promise ends. *)
Inductive Settled (A : Type) :=
| Fulfilled (a : A)
| Rejected (e : JsError).
Arguments Fulfilled {A} a.
Arguments Rejected {A} e.

(** Modelled from the spec: [p.then(onOk, onErr)] once [p] has settled;
    whichever handler runs returns normally, so the derived promise is
    fulfilled. *)
Definition then_both {A B} (o : Settled A) (onOk : A -> B) (onErr : JsError -> B) : Settled B :=
  match o with
  | Fulfilled a => Fulfilled (onOk a)
  | Rejected e => Fulfilled (onErr e)
  end.

(** Modelled from the spec: [p.then(onOk)]; a failure passes through. *)
Definition then_ok {A B} (o : Settled A) (onOk : A -> B) : Settled B :=
  match o with
  | Fulfilled a => Fulfilled (onOk a)
  | Rejected e => Rejected e
  end.

(** Modelled from the spec: [TPromise.join] once every member has
    settled: all the values, or the failure of a member. *)
Fixpoint join {A} (os : list (Settled A)) : Settled (list A) :=
  match os with
  | [] => Fulfilled []
  | Fulfilled a :: rest => then_ok (join rest) (cons a)
  | Rejected e :: _ => Rejected e
  end.

(** A deferred objection is a handle into the table of settlements. *)
Definition handle := nat.

(** An entry of [vetos]: [boolean | TPromise<boolean>]. *)
Inductive Objection :=
| Immediate (b : bool)
| Deferred (p : handle).

(** A listener of [onWillShutdown], by the values it hands to [veto]
    while it is being notified. *)
Definition Listener := ShutdownReason -> list Objection.

(** Modelled from the spec: [Emitter.fire] ([vs/base/common/event]) calls
    the listeners in registration order; each call of [veto] appends to
    the list of this one broadcast. *)
Definition fire (listeners : list Listener) (reason : ShutdownReason) : list Objection :=
  flat_map (fun l => l reason) listeners.

(** The payload of ['vscode:beforeUnload']. *)
Record Reply := mkReply {
  okChannel : string;
  cancelChannel : string;
  reason : ShutdownReason
}.

(** The fields of the service together with what its collaborators have
    received from it. *)
Record LifecycleService := mkService {
  _storageService : Storage;
  _startupKind : StartupKind;
  _willShutdown : option bool;          (* [None]: never assigned *)
  windowId : Z;
  _onWillShutdown : list Listener;
  _onShutdown : list ShutdownReason;    (* reasons fired, oldest first *)
  _messageService : list (Severity * string);
  ipcSent : list (string * Z);          (* [ipc.send(channel, id)], oldest first *)
  unhandled : list JsError              (* failures that reached [done] *)
}.

Definition with_storage (st : Storage) (s : LifecycleService) : LifecycleService :=
  mkService st (_startupKind s) (_willShutdown s) (windowId s) (_onWillShutdown s)
            (_onShutdown s) (_messageService s) (ipcSent s) (unhandled s).

Definition with_willShutdown (b : bool) (s : LifecycleService) : LifecycleService :=
  mkService (_storageService s) (_startupKind s) (Some b) (windowId s) (_onWillShutdown s)
            (_onShutdown s) (_messageService s) (ipcSent s) (unhandled s).

Definition show (sev : Severity) (msg : string) (s : LifecycleService) : LifecycleService :=
  mkService (_storageService s) (_startupKind s) (_willShutdown s) (windowId s) (_onWillShutdown s)
            (_onShutdown s) (_messageService s ++ [(sev, msg)]) (ipcSent s) (unhandled s).

Definition send (channel : string) (id : Z) (s : LifecycleService) : LifecycleService :=
  mkService (_storageService s) (_startupKind s) (_willShutdown s) (windowId s) (_onWillShutdown s)
            (_onShutdown s) (_messageService s) (ipcSent s ++ [(channel, id)]) (unhandled s).

Definition fire_onShutdown (r : ShutdownReason) (s : LifecycleService) : LifecycleService :=
  mkService (_storageService s) (_startupKind s) (_willShutdown s) (windowId s) (_onWillShutdown s)
            (_onShutdown s ++ [r]) (_messageService s) (ipcSent s) (unhandled s).

Definition raise_unhandled (e : JsError) (s : LifecycleService) : LifecycleService :=
  mkService (_storageService s) (_startupKind s) (_willShutdown s) (windowId s) (_onWillShutdown s)
            (_onShutdown s) (_messageService s) (ipcSent s) (unhandled s ++ [e]).

(** Registration on the [onWillShutdown] event. *)
Definition onWillShutdown (l : Listener) (s : LifecycleService) : LifecycleService :=
  mkService (_storageService s) (_startupKind s) (_willShutdown s) (windowId s)
            (_onWillShutdown s ++ [l])
            (_onShutdown s) (_messageService s) (ipcSent s) (unhandled s).

(** The getters. *)
Definition startupKind (s : LifecycleService) : StartupKind := _startupKind s.
Definition willShutdown (s : LifecycleService) : option bool := _willShutdown s.


(** The constructor: read the persisted reason, remove the key, classify.
    [_willShutdown] is declared but not assigned. *)
Definition constructor (id : Z) (st : Storage) : LifecycleService :=
  let lastShutdownReason := getInteger _lastShutdownReasonKey WORKSPACE st in
  let st' := remove _lastShutdownReasonKey WORKSPACE st in
  mkService st' (startupKindOf lastShutdownReason) None id [] [] [] [] [].

(** ** [onBeforeUnload] *)

(** The two continuations attached to a deferred objection: a truthy
    value or a failure sets [lazyValue]; a failure is also shown. *)
Definition settle_callback (o : Settled bool) (st : bool * LifecycleService)
  : bool * LifecycleService :=
  match o with
  | Fulfilled value => (if value then true else fst st, snd st)
  | Rejected err => (true, show Error (toErrorMessage err) (snd st))
  end.

(** What [onBeforeUnload] leaves behind when it returns: the deferred
    objections it has attached continuations to, the current [lazyValue],
    and whether it returned [TPromise.as(b)] ([Some b]) or the join
    ([None]). *)
Record Aggregation := mkAggregation {
  promises : list handle;
  lazyValue : bool;
  returned : option bool
}.

(** The [for] loop over [vetos].  A deferred objection that has already
    settled runs its continuation on the spot. *)
Fixpoint scan (settled : gmap handle (Settled bool)) (vetos : list Objection)
    (acc : list handle) (st : bool * LifecycleService)
  : Aggregation * LifecycleService :=
  match vetos with
  | [] => (mkAggregation acc (fst st) None, snd st)
  | Immediate true :: _ => (mkAggregation acc (fst st) (Some true), snd st)
  | Immediate false :: rest => scan settled rest acc st
  | Deferred p :: rest =>
      scan settled rest (acc ++ [p])
           (match settled !! p with
            | Some o => settle_callback o st
            | None => st
            end)
  end.

Definition onBeforeUnload (settled : gmap handle (Settled bool)) (r : ShutdownReason)
    (s : LifecycleService) : Aggregation * LifecycleService :=
  match fire (_onWillShutdown s) r with
  | [] => (mkAggregation [] false (Some false), s)
  | vetos => scan settled vetos [] (false, s)
  end.

(** ** The ['vscode:beforeUnload'] handler *)

(** One activation of the handler. [verdict] is what its [done]
    continuation has been run with, if it has run. *)
Record Invocation := mkInvocation {
  inv_reply : Reply;
  inv_agg : Aggregation;
  verdict : option (Settled bool)
}.

(** The promise [onBeforeUnload] returned, as far as it has settled. *)
Definition result_of (settled : gmap handle (Settled bool)) (a : Aggregation)
  : option (Settled bool) :=
  match returned a with
  | Some b => Some (Fulfilled b)
  | None =>
      match mapM (fun p => settled !! p) (promises a) with
      | Some os =>
          Some (then_ok (join (map (fun o => then_both o (fun _ => tt) (fun _ => tt)) os))
                        (fun _ => lazyValue a))
      | None => None
      end
  end.

(** The body of [done(veto => ...)]. *)
Definition on_done (reply : Reply) (veto : bool) (s : LifecycleService) : LifecycleService :=
  if veto then
    send (cancelChannel reply) (windowId s)
      (with_willShutdown false
        (with_storage (remove _lastShutdownReasonKey WORKSPACE (_storageService s)) s))
  else
    send (okChannel reply) (windowId s) (fire_onShutdown (reason reply) s).

(** Run the [done] continuation if the result has settled and it has not
    run yet. *)
Definition deliver (settled : gmap handle (Settled bool)) (inv : Invocation)
    (s : LifecycleService) : Invocation * LifecycleService :=
  match verdict inv with
  | Some _ => (inv, s)
  | None =>
      match result_of settled (inv_agg inv) with
      | None => (inv, s)
      | Some (Fulfilled veto) =>
          (mkInvocation (inv_reply inv) (inv_agg inv) (Some (Fulfilled veto)),
           on_done (inv_reply inv) veto s)
      | Some (Rejected e) =>
          (mkInvocation (inv_reply inv) (inv_agg inv) (Some (Rejected e)),
           raise_unhandled e s)
      end
  end.

(** The service, the settlements so far, and the activations of the
    handler. *)
Record World := mkWorld {
  service : LifecycleService;
  settlements : gmap handle (Settled bool);
  invocations : list Invocation
}.

Definition beforeUnload (reply : Reply) (w : World) : World :=
  let s1 := with_willShutdown true (service w) in
  let s2 := with_storage
              (store _lastShutdownReasonKey (JSON_stringify (reason_value (reason reply)))
                     WORKSPACE (_storageService s1)) s1 in
  let '(agg, s3) := onBeforeUnload (settlements w) (reason reply) s2 in
  let '(inv, s4) := deliver (settlements w) (mkInvocation reply agg None) s3 in
  mkWorld s4 (settlements w) (invocations w ++ [inv]).

(** ** Settlement of a deferred objection *)

(** The continuations one activation attached to [p], in the order of
    attachment. *)
Fixpoint run_callbacks (p : handle) (o : Settled bool) (ps : list handle)
    (st : bool * LifecycleService) : bool * LifecycleService :=
  match ps with
  | [] => st
  | q :: rest =>
      run_callbacks p o rest (if decide (q = p) then settle_callback o st else st)
  end.

Definition notify (p : handle) (o : Settled bool) (settled : gmap handle (Settled bool))
    (inv : Invocation) (s : LifecycleService) : Invocation * LifecycleService :=
  let st := run_callbacks p o (promises (inv_agg inv)) (lazyValue (inv_agg inv), s) in
  deliver settled
    (mkInvocation (inv_reply inv)
       (mkAggregation (promises (inv_agg inv)) (fst st) (returned (inv_agg inv)))
       (verdict inv))
    (snd st).

Fixpoint notify_all (p : handle) (o : Settled bool) (settled : gmap handle (Settled bool))
    (invs : list Invocation) (s : LifecycleService) : list Invocation * LifecycleService :=
  match invs with
  | [] => ([], s)
  | inv :: rest =>
      let '(inv', s1) := notify p o settled inv s in
      let '(rest', s2) := notify_all p o settled rest s1 in
      (inv' :: rest', s2)
  end.

(** A promise settles once; a second settlement of the same handle is
    ignored. *)
Definition settle (p : handle) (o : Settled bool) (w : World) : World :=
  match settlements w !! p with
  | Some _ => w
  | None =>
      let settled := <[p := o]> (settlements w) in
      let '(invs, s) := notify_all p o settled (invocations w) (service w) in
      mkWorld s settled invs
  end.

Inductive Event :=
| BeforeUnload (reply : Reply)
| Settle (p : handle) (o : Settled bool).

Definition step (w : World) (e : Event) : World :=
  match e with
  | BeforeUnload reply => beforeUnload reply w
  | Settle p o => settle p o w
  end.

Definition run (es : list Event) (w : World) : World := fold_left step es w.

(** A window right after construction, with its listeners registered. *)
Definition boot (id : Z) (st : Storage) (listeners : list Listener) : World :=
  mkWorld (fold_left (fun s l => onWillShutdown l s) listeners (constructor id st)) ∅ [].

(** ** Vocabulary for the statements *)

Definition add_messages (ms : list (Severity * string)) (s : LifecycleService)
  : LifecycleService :=
  mkService (_storageService s) (_startupKind s) (_willShutdown s) (windowId s) (_onWillShutdown s)
            (_onShutdown s) (_messageService s ++ ms) (ipcSent s) (unhandled s).

(** The service once a request has been accepted: flag raised, reason
    persisted. *)
Definition accepted (reply : Reply) (s : LifecycleService) : LifecycleService :=
  with_storage
    (store _lastShutdownReasonKey (JSON_stringify (reason_value (reason reply)))
           WORKSPACE (_storageService s))
    (with_willShutdown true s).

Definition immediate_true (o : Objection) : bool :=
  match o with
  | Immediate true => true
  | _ => false
  end.

Definition has_immediate_true (vetos : list Objection) : bool := existsb immediate_true vetos.

(** The deferred objections the loop reaches before it returns. *)
Fixpoint attached (vetos : list Objection) : list handle :=
  match vetos with
  | [] => []
  | Immediate true :: _ => []
  | Immediate false :: rest => attached rest
  | Deferred p :: rest => p :: attached rest
  end.

(** What [onBeforeUnload] returns for a list of objections: an immediate
    value, or the join. *)
Definition returned_of (vetos : list Objection) : option bool :=
  match vetos with
  | [] => Some false
  | _ => if has_immediate_true vetos then Some true else None
  end.

Definition is_settled (o : option (Settled bool)) : bool :=
  match o with
  | Some _ => true
  | None => false
  end.

(** A settlement that counts as a veto: a true value or a failure. *)
Definition vetoing (o : option (Settled bool)) : bool :=
  match o with
  | Some (Fulfilled v) => v
  | Some (Rejected _) => true
  | None => false
  end.

Definition failure (o : option (Settled bool)) : option JsError :=
  match o with
  | Some (Rejected e) => Some e
  | _ => None
  end.

Definition failures (settled : gmap handle (Settled bool)) (ps : list handle) : list JsError :=
  omap (fun p => failure (settled !! p)) ps.

Definition report (e : JsError) : Severity * string := (Error, toErrorMessage e).

Definition all_settled (settled : gmap handle (Settled bool)) (ps : list handle) : bool :=
  forallb (fun p => is_settled (settled !! p)) ps.

Definition any_vetoing (settled : gmap handle (Settled bool)) (ps : list handle) : bool :=
  existsb (fun p => vetoing (settled !! p)) ps.

(** The verdict a request has reached under the settlements so far. *)
Definition expected_verdict (settled : gmap handle (Settled bool)) (vetos : list Objection)
  : option (Settled bool) :=
  match returned_of vetos with
  | Some b => Some (Fulfilled b)
  | None =>
      if all_settled settled (attached vetos)
      then Some (Fulfilled (any_vetoing settled (attached vetos)))
      else None
  end.

(** An objection that has settled (immediate ones always have). *)
Definition objection_settled (settled : gmap handle (Settled bool)) (o : Objection) : bool :=
  match o with
  | Immediate _ => true
  | Deferred p => is_settled (settled !! p)
  end.

(** An objection that is plainly false: immediate [false], or deferred
    and resolved to [false]. *)
Definition objection_false (settled : gmap handle (Settled bool)) (o : Objection) : bool :=
  match o with
  | Immediate b => negb b
  | Deferred p =>
      match settled !! p with
      | Some (Fulfilled false) => true
      | _ => false
      end
  end.

(** An activation that no longer reacts to anything: its [done]
    continuation has run and every promise it listens to has settled. *)
Definition inert (settled : gmap handle (Settled bool)) (inv : Invocation) : Prop :=
  is_Some (verdict inv) /\ all_settled settled (promises (inv_agg inv)) = true.

(** No request in flight and no continuation left waiting. *)
Definition idle (w : World) : Prop := Forall (inert (settlements w)) (invocations w).

(** Some request still waits for its decision. *)
Definition in_flight (w : World) : bool :=
  existsb (fun inv => negb (is_settled (verdict inv))) (invocations w).

(** The verdict of the most recent request. *)
Definition current_verdict (w : World) : option (Settled bool) :=
  match last (invocations w) with
  | Some inv => verdict inv
  | None => None
  end.

Definition settles (sched : list (handle * Settled bool)) : list Event :=
  map (fun ps => Settle (fst ps) (snd ps)) sched.

(** One request, followed by settlements in any order. *)
Definition request_run (reply : Reply) (sched : list (handle * Settled bool)) (w : World)
  : World :=
  run (BeforeUnload reply :: settles sched) w.

(** The objections raised against a request arriving in [w]. *)
Definition objections (reply : Reply) (w : World) : list Objection :=
  fire (_onWillShutdown (service w)) (reason reply).

(** The activation and the service of a request accepted in [s0], as
    determined by the settlements so far; the reports of failures may
    have arrived in any order. *)
Definition tracks (s0 : LifecycleService) (reply : Reply)
    (settled : gmap handle (Settled bool)) (inv : Invocation) (s : LifecycleService) : Prop :=
  let vetos := fire (_onWillShutdown s0) (reason reply) in
  exists msgs,
    (msgs ≡ₚ map report (failures settled (attached vetos))) /\
    (inv = mkInvocation reply
             (mkAggregation (attached vetos) (any_vetoing settled (attached vetos))
                            (returned_of vetos))
             (expected_verdict settled vetos)) /\
    (s = match expected_verdict settled vetos with
         | Some (Fulfilled veto) => on_done reply veto (add_messages msgs (accepted reply s0))
         | _ => add_messages msgs (accepted reply s0)
         end).

(** The shape of a world in which one request, accepted in [s0], is
    being followed: earlier activations are inert, the last one
    [tracks]. *)
Definition following (s0 : LifecycleService) (reply : Reply) (old : list Invocation) (w : World) : Prop :=
  exists inv,
    invocations w = old ++ [inv] /\
    Forall (inert (settlements w)) old /\
    tracks s0 reply (settlements w) inv (service w).

(** What a decided activation has sent, and what it has fired. *)
Definition reply_sent (id : Z) (inv : Invocation) : list (string * Z) :=
  match verdict inv with
  | Some (Fulfilled true) => [(cancelChannel (inv_reply inv), id)]
  | Some (Fulfilled false) => [(okChannel (inv_reply inv), id)]
  | _ => []
  end.

Definition shutdown_fired (inv : Invocation) : list ShutdownReason :=
  match verdict inv with
  | Some (Fulfilled false) => [reason (inv_reply inv)]
  | _ => []
  end.

(** The sends and the firings of a world match the verdicts of its
    activations, beyond what was there to begin with. *)
Definition outputs_match (id : Z) (sent0 : list (string * Z)) (fired0 : list ShutdownReason)
    (w : World) : Prop :=
  windowId (service w) = id /\
  ipcSent (service w) ≡ₚ sent0 ++ flat_map (reply_sent id) (invocations w) /\
  _onShutdown (service w) ≡ₚ fired0 ++ flat_map shutdown_fired (invocations w).

(** ** Further vocabulary *)

(** The handles of the deferred objections of a list, in order. *)
Definition deferred_handles (vetos : list Objection) : list handle :=
  omap (fun v => match v with Deferred p => Some p | Immediate _ => None end) vetos.

(** What the handler never writes: the startup kind, the window
    identifier, the listeners, the failures left unhandled, the global
    scope of the store and every workspace key but the reason key. *)
Definition untouched (s s' : LifecycleService) : Prop :=
  _startupKind s' = _startupKind s /\
  windowId s' = windowId s /\
  _onWillShutdown s' = _onWillShutdown s /\
  unhandled s' = unhandled s /\
  globalStorage (_storageService s') = globalStorage (_storageService s) /\
  forall k, k <> _lastShutdownReasonKey ->
    workspaceStorage (_storageService s') !! k = workspaceStorage (_storageService s) !! k.

(** A report that stems from a deferred objection that has failed. *)
Definition reported (settled : gmap handle (Settled bool))
    (m : Severity * string) : Prop :=
  exists p e, settled !! p = Some (Rejected e) /\ m = report e.

(** The table of settlements after a schedule: the first settlement of a
    handle stays. *)
Definition settle_table (settled : gmap handle (Settled bool))
    (ps : handle * Settled bool)
  : gmap handle (Settled bool) :=
  match settled !! ps.1 with
  | Some _ => settled
  | None => <[ps.1 := ps.2]> settled
  end.

Definition is_request (e : Event) : bool :=
  match e with
  | BeforeUnload _ => true
  | Settle _ _ => false
  end.

(** The requests among the events, and the activations still waiting. *)
Definition requests (es : list (Event)) : nat :=
  length (List.filter is_request es).

Definition waiting (w : World) : nat :=
  length (List.filter (fun inv => negb (is_settled (verdict inv))) (invocations w)).

(** The channel a verdict is answered on. *)
Definition channel_of (reply : Reply) (veto : bool) : string :=
  if veto then cancelChannel reply else okChannel reply.

(** Every verdict reached is a value, not a failure. *)
Definition verdicts_fulfilled (invs : list (Invocation)) : Prop :=
  Forall (fun inv => forall e, verdict inv <> Some (Rejected e)) invs.

(** What a settlement can do to flag and reason key: leave them, or take
    them back as a veto does. *)
Definition only_retracts (s s' : LifecycleService) : Prop :=
  (_willShutdown s' = _willShutdown s \/ _willShutdown s' = Some false) /\
  (get _lastShutdownReasonKey WORKSPACE (_storageService s')
   = get _lastShutdownReasonKey WORKSPACE (_storageService s)
   \/ get _lastShutdownReasonKey WORKSPACE (_storageService s') = None).

End Handshake.

Arguments Fulfilled {JsError A} a.
Arguments Rejected {JsError A} e.

(** ** Sample windows *)

Definition text_of_error (e : string) : string := e.

Definition empty_storage : Storage := mkStorage ∅ ∅.

(** A store a window has used before: a reload was persisted, and other
    keys live in both scopes. *)
Definition used_storage : Storage :=
  store "workbench.theme" "dark" GLOBAL
    (store "editor.state" "open" WORKSPACE
       (store _lastShutdownReasonKey "3" WORKSPACE empty_storage)).

Definition no_objection : Listener := fun _ => [].
Definition objects_at_once : Listener := fun _ => [Immediate true].
Definition objects_to_close : Listener :=
  fun r => match r with CLOSE => [Immediate true] | _ => [] end.
Definition defers_twice : Listener := fun _ => [Immediate false; Deferred 1; Deferred 2].
Definition defers_on_reload : Listener :=
  fun r => match r with RELOAD => [Deferred 1] | _ => [] end.
Definition defers_then_objects : Listener :=
  fun _ => [Deferred 1; Immediate true; Deferred 2].

Definition close_request : Reply := mkReply "vscode:ok1" "vscode:cancel1" CLOSE.
Definition reload_request : Reply := mkReply "vscode:ok2" "vscode:cancel2" RELOAD.

(** A freshly built window with the given listeners of [onWillShutdown]. *)
Definition window (listeners : list Listener) : World (JsError := string) :=
  boot 1 empty_storage listeners.

(** * Facts *)

Example parseInt_3abc : parseInt "  3abc" = JInt 3.
Proof. reflexivity. Qed.
Example parseInt_neg : parseInt (JSON_stringify (-120)) = JInt (-120).
Proof. reflexivity. Qed.
Example parseInt_nan : parseInt "abc" = JNaN.
Proof. reflexivity. Qed.

(** *** The persisted reason survives the store *)

Lemma parse_digits_numeral d acc :
  parse_digits (NilEmpty.string_of_uint d) true acc = Some (uint_acc d acc).
Proof.
  revert acc; induction d; intros acc; cbn [NilEmpty.string_of_uint parse_digits uint_acc];
    try reflexivity; apply IHd.
Qed.

Lemma uint_acc_positive d a : uint_acc d (Npos a) = Npos (Pos.of_uint_acc d a).
Proof.
  revert a; induction d; intros a; cbn [uint_acc Pos.of_uint_acc]; try reflexivity.
  all: match goal with
       | |- uint_acc _ ?x = N.pos (Pos.of_uint_acc _ ?y) =>
           replace x with (Npos y) by lia; apply IHd
       end.
Qed.

Lemma uint_acc_zero d : uint_acc d 0 = Pos.of_uint d.
Proof.
  induction d; cbn [uint_acc Pos.of_uint]; try reflexivity.
  1: exact IHd.
  all: match goal with
       | |- uint_acc _ ?x = N.pos (Pos.of_uint_acc _ ?y) =>
           replace x with (Npos y) by lia; apply uint_acc_positive
       end.
Qed.

Lemma parse_digits_positive p :
  skip_whitespace (NilEmpty.string_of_uint (Pos.to_uint p)) = NilEmpty.string_of_uint (Pos.to_uint p)
  /\ parse_digits (NilEmpty.string_of_uint (Pos.to_uint p)) false 0 = Some (Npos p)
  /\ NilZero.string_of_uint (Pos.to_uint p) = NilEmpty.string_of_uint (Pos.to_uint p).
Proof.
  pose proof (DecimalPos.Unsigned.to_uint_nonnil p) as Hn.
  pose proof (DecimalPos.Unsigned.of_to p) as Hr.
  rewrite <- uint_acc_zero in Hr.
  destruct (Pos.to_uint p) as [|d|d|d|d|d|d|d|d|d|d]; [congruence|..];
    (split; [reflexivity|split; [|reflexivity]]);
    cbn [NilEmpty.string_of_uint parse_digits]; 
    (etransitivity; [apply parse_digits_numeral|]); f_equal; exact Hr.
Qed.

Lemma parseInt_stringify z : parseInt (JSON_stringify z) = JInt z.
Proof.
  unfold JSON_stringify.
  destruct z as [|p|p]; [reflexivity|..]; cbn [Z.to_int NilZero.string_of_int].
  - destruct (parse_digits_positive p) as (Hs & Hp & Hz). rewrite Hz.
    unfold parseInt. rewrite Hs.
    pose proof (DecimalPos.Unsigned.to_uint_nonnil p) as Hn.
    destruct (Pos.to_uint p) as [|d|d|d|d|d|d|d|d|d|d]; [congruence|..];
      cbn [NilEmpty.string_of_uint] in *; rewrite Hp; reflexivity.
  - destruct (parse_digits_positive p) as (Hs & Hp & Hz). rewrite Hz.
    unfold parseInt. cbn [skip_whitespace]. 
    change (is_whitespace "-") with false. cbv iota. rewrite Hp. reflexivity.
Qed.

Lemma getInteger_store key z st :
  getInteger key WORKSPACE (store key (JSON_stringify z) WORKSPACE st) = JInt z.
Proof.
  unfold getInteger, get, store; cbn. rewrite lookup_insert_eq. apply parseInt_stringify.
Qed.

Lemma getInteger_remove key st :
  getInteger key WORKSPACE (remove key WORKSPACE st) = JUndefined.
Proof. unfold getInteger, get, remove; cbn. by rewrite lookup_delete_eq. Qed.

Lemma startupKindOf_reason R :
  startupKindOf (JInt (reason_value R)) = classify_spec (Some R).
Proof. by destruct R. Qed.

Section HandshakeFacts.

Context {JsError : Type} (toErrorMessage : JsError -> string).

Abbreviation Table := (gmap handle (Settled (JsError:=JsError) bool)).
Abbreviation Service := (LifecycleService (JsError:=JsError)).

Implicit Types (settled : Table) (s : Service) (p q : handle)
  (o : Settled (JsError:=JsError) bool) (ps : list handle) (vetos : list Objection).

(** *** Bookkeeping on the service record *)

Lemma add_messages_nil s : add_messages [] s = s.
Proof. destruct s; unfold add_messages; cbn. by rewrite app_nil_r. Qed.

Lemma add_messages_app ms1 ms2 s :
  add_messages ms2 (add_messages ms1 s) = add_messages (ms1 ++ ms2) s.
Proof. unfold add_messages; cbn. by rewrite app_assoc. Qed.

Lemma on_done_add_messages reply veto ms s :
  add_messages ms (on_done reply veto s) = on_done reply veto (add_messages ms s).
Proof. by destruct veto. Qed.

Lemma settle_callback_spec o b s :
  settle_callback toErrorMessage o (b, s)
  = (b || vetoing (Some o),
     add_messages (map (report toErrorMessage) (option_list (failure (Some o)))) s).
Proof.
  destruct o as [[]|e]; cbn; rewrite ?add_messages_nil, ?orb_true_r, ?orb_false_r; done.
Qed.

(** *** The promise combinators *)

Lemma join_then_both {A} (os : list (Settled (JsError:=JsError) A)) :
  join (map (fun x => then_both x (fun _ => tt) (fun _ => tt)) os)
  = Fulfilled (map (fun _ => tt) os).
Proof.
  induction os as [|[a|e] os IH]; cbn; [done|..]; by rewrite IH.
Qed.

Lemma mapM_settled settled ps :
  match mapM (fun p => settled !! p) ps with
  | Some os => all_settled settled ps = true
  | None => all_settled settled ps = false
  end.
Proof.
  induction ps as [|p ps IH]; cbn; [done|].
  destruct (settled !! p) as [o|]; cbn; [|done].
  destruct (mapM _ ps); cbn in *; done.
Qed.

Lemma result_of_join settled ps lazy :
  result_of settled (mkAggregation ps lazy None)
  = if all_settled settled ps then Some (Fulfilled lazy) else None.
Proof.
  unfold result_of; cbn.
  pose proof (mapM_settled settled ps) as H.
  destruct (mapM _ ps) as [os|]; rewrite H; [|done].
  by rewrite join_then_both.
Qed.

(** *** The scan of [onBeforeUnload] *)

Lemma failures_cons settled p ps :
  failures settled (p :: ps) = option_list (failure (settled !! p)) ++ failures settled ps.
Proof. unfold failures; cbn. by destruct (failure _). Qed.

Lemma scan_spec settled vetos acc b s :
  scan toErrorMessage settled vetos acc (b, s)
  = (mkAggregation (acc ++ attached vetos)
       (b || any_vetoing settled (attached vetos))
       (if has_immediate_true vetos then Some true else None),
     add_messages (map (report toErrorMessage) (failures settled (attached vetos))) s).
Proof.
  revert acc b s; induction vetos as [|[[]|p] vetos IH]; intros acc b s;
    cbn [scan attached has_immediate_true existsb immediate_true orb fst snd].
  - cbn. by rewrite app_nil_r, orb_false_r, add_messages_nil.
  - cbn. by rewrite app_nil_r, orb_false_r, add_messages_nil.
  - apply IH.
  - rewrite failures_cons, map_app, <- add_messages_app.
    unfold any_vetoing at 1; cbn [existsb]; fold (any_vetoing settled (attached vetos)).
    change (has_immediate_true vetos) with (existsb immediate_true vetos) in IH.
    destruct (settled !! p) as [o|] eqn:Hp.
    + rewrite settle_callback_spec, IH, <- app_assoc, orb_assoc. done.
    + rewrite IH, <- app_assoc. cbn. by rewrite add_messages_nil.
Qed.

Lemma onBeforeUnload_spec settled r s :
  let vetos := fire (_onWillShutdown s) r in
  onBeforeUnload toErrorMessage settled r s
  = (mkAggregation (attached vetos) (any_vetoing settled (attached vetos)) (returned_of vetos),
     add_messages (map (report toErrorMessage) (failures settled (attached vetos))) s).
Proof.
  cbn zeta. unfold onBeforeUnload.
  destruct (fire (_onWillShutdown s) r) as [|v rest].
  - cbn. by rewrite add_messages_nil.
  - rewrite scan_spec. done.
Qed.


(** *** Settling one promise *)

(** The reports the continuations on [p] produce when [p] settles. *)
Lemma run_callbacks_spec p o ps b s :
  run_callbacks toErrorMessage p o ps (b, s)
  = (b || (bool_decide (p ∈ ps) && vetoing (Some o)),
     add_messages
       (map (report toErrorMessage)
            (flat_map (fun q => if decide (q = p) then option_list (failure (Some o)) else []) ps))
       s).
Proof.
  revert b s; induction ps as [|q ps IH]; intros b s; cbn [run_callbacks flat_map].
  - cbn. by rewrite add_messages_nil, orb_false_r.
  - rewrite map_app, <- add_messages_app.
    destruct (decide (q = p)) as [->|Hne].
    + rewrite settle_callback_spec, IH.
      rewrite (bool_decide_eq_true_2 (p ∈ p :: ps)) by set_solver.
      f_equal. destruct (vetoing (Some o)), b, (bool_decide (p ∈ ps)); done.
    + rewrite IH. cbn [map]. rewrite add_messages_nil.
      f_equal. f_equal. f_equal. apply bool_decide_ext. set_solver.
Qed.

Lemma any_vetoing_insert settled p o ps :
  settled !! p = None ->
  any_vetoing (<[p := o]> settled) ps
  = any_vetoing settled ps || (bool_decide (p ∈ ps) && vetoing (Some o)).
Proof.
  intros Hp. induction ps as [|q ps IH]; [done|].
  unfold any_vetoing in *; cbn [existsb]. rewrite IH.
  destruct (decide (q = p)) as [->|Hne].
  - rewrite lookup_insert_eq, Hp.
    rewrite (bool_decide_eq_true_2 (p ∈ p :: ps)) by set_solver.
    change (vetoing None) with false.
    clear IH. by destruct (vetoing (Some o)), (existsb _ ps), (bool_decide (p ∈ ps)).
  - rewrite lookup_insert_ne by done.
    rewrite (bool_decide_ext (p ∈ q :: ps) (p ∈ ps)) by set_solver.
    by rewrite orb_assoc.
Qed.

Lemma failures_insert settled p o ps :
  settled !! p = None ->
  failures (<[p := o]> settled) ps
  ≡ₚ failures settled ps
     ++ flat_map (fun q => if decide (q = p) then option_list (failure (Some o)) else []) ps.
Proof.
  intros Hp. induction ps as [|q ps IH]; [done|].
  rewrite !failures_cons. cbn [flat_map]. rewrite IH.
  destruct (decide (q = p)) as [->|Hne].
  - rewrite lookup_insert_eq, Hp. cbn [failure option_list app].
    by rewrite Permutation_app_swap_app.
  - rewrite lookup_insert_ne by done. cbn [app]. by rewrite app_assoc.
Qed.

Lemma all_settled_insert settled p o ps :
  all_settled settled ps = true -> all_settled (<[p := o]> settled) ps = true.
Proof.
  unfold all_settled. rewrite !forallb_forall. intros H q Hq.
  specialize (H q Hq). destruct (decide (p = q)) as [->|Hne].
  - by rewrite lookup_insert_eq.
  - by rewrite lookup_insert_ne.
Qed.

Lemma all_settled_not_elem settled p ps :
  settled !! p = None -> all_settled settled ps = true -> p ∉ ps.
Proof.
  unfold all_settled. rewrite forallb_forall. intros Hp H Hin.
  apply list_elem_of_In in Hin. specialize (H p Hin). by rewrite Hp in H.
Qed.

Lemma flat_map_not_elem {A} p (l : list A) ps :
  p ∉ ps -> flat_map (fun q => if decide (q = p) then l else []) ps = [].
Proof.
  induction ps as [|q ps IH]; [done|]. intros Hn. cbn.
  destruct (decide (q = p)) as [->|]; [set_solver|]. apply IH. set_solver.
Qed.

(** An activation that is inert stays as it is when a further promise
    settles. *)
Lemma notify_inert settled p o inv s :
  settled !! p = None -> inert settled inv ->
  notify toErrorMessage p o (<[p := o]> settled) inv s = (inv, s)
  /\ inert (<[p := o]> settled) inv.
Proof.
  destruct inv as [reply [ps lazy ret] vd].
  intros Hp [[v Hv] Hall]. cbn in Hv, Hall. subst vd.
  pose proof (all_settled_not_elem _ _ _ Hp Hall) as Hn.
  split; [|split; [by exists v|by apply all_settled_insert]].
  unfold notify. rewrite run_callbacks_spec. cbn [promises inv_agg].
  rewrite (bool_decide_eq_false_2 _ Hn), flat_map_not_elem by done.
  cbn [andb map fst snd]. by rewrite orb_false_r, add_messages_nil.
Qed.

Lemma notify_all_inert settled p o invs s :
  settled !! p = None -> Forall (inert settled) invs ->
  notify_all toErrorMessage p o (<[p := o]> settled) invs s = (invs, s)
  /\ Forall (inert (<[p := o]> settled)) invs.
Proof.
  intros Hp H. revert s. induction H as [|inv invs Hi _ IH]; intros s; [done|].
  destruct (notify_inert settled p o inv s Hp Hi) as [E Hi'].
  destruct (IH s) as [IH1 IH2].
  cbn [notify_all]. rewrite E, IH1. split; [done|by constructor].
Qed.

Lemma notify_all_snoc settled p o invs inv s :
  settled !! p = None -> Forall (inert settled) invs ->
  notify_all toErrorMessage p o (<[p := o]> settled) (invs ++ [inv]) s
  = (invs ++ [(notify toErrorMessage p o (<[p := o]> settled) inv s).1],
     (notify toErrorMessage p o (<[p := o]> settled) inv s).2).
Proof.
  intros Hp H. revert s. induction H as [|i invs Hi _ IH]; intros s.
  - cbn. by destruct (notify _ _ _ _ _ _).
  - destruct (notify_inert settled p o i s Hp Hi) as [E _].
    cbn [notify_all app]. rewrite E, IH. done.
Qed.


(** The activation of the request under study follows [tracks] through
    every settlement. *)
Lemma notify_tracks s0 reply settled p o inv s :
  settled !! p = None ->
  tracks toErrorMessage s0 reply settled inv s ->
  tracks toErrorMessage s0 reply (<[p := o]> settled)
    (notify toErrorMessage p o (<[p := o]> settled) inv s).1
    (notify toErrorMessage p o (<[p := o]> settled) inv s).2.
Proof.
  intros Hp (msgs & Hm & -> & ->). unfold tracks.
  set (vetos := fire (_onWillShutdown s0) (reason reply)) in *.
  set (ps := attached vetos) in *.
  set (new := flat_map (fun q => if decide (q = p) then option_list (failure (Some o)) else []) ps).
  exists (msgs ++ map (report toErrorMessage) new).
  assert (msgs ++ map (report toErrorMessage) new
          ≡ₚ map (report toErrorMessage) (failures (<[p := o]> settled) ps)) as Hperm.
  { rewrite failures_insert, map_app, Hm by done. done. }
  split; [exact Hperm|].
  unfold notify. cbn [inv_agg promises lazyValue inv_reply returned verdict].
  rewrite run_callbacks_spec. fold new. cbn [fst snd].
  rewrite <- any_vetoing_insert by done.
  unfold expected_verdict. fold ps.
  destruct (returned_of vetos) as [b|] eqn:Hr.
  - unfold deliver; cbn [verdict fst snd].
    by rewrite on_done_add_messages, add_messages_app.
  - destruct (all_settled settled ps) eqn:Hall.
    + rewrite (all_settled_insert _ p o _ Hall).
      pose proof (all_settled_not_elem _ _ _ Hp Hall) as Hn.
      unfold deliver; cbn [verdict fst snd].
      rewrite on_done_add_messages, add_messages_app.
      rewrite (any_vetoing_insert settled p o ps Hp).
      rewrite (bool_decide_eq_false_2 _ Hn). cbn [andb]. rewrite orb_false_r. done.
    + unfold deliver; cbn [verdict inv_agg inv_reply fst snd].
      rewrite result_of_join, add_messages_app.
      by destruct (all_settled (<[p := o]> settled) ps).
Qed.

Lemma settle_following s0 reply old p o (w : World) :
  following toErrorMessage s0 reply old w ->
  following toErrorMessage s0 reply old (settle toErrorMessage p o w).
Proof.
  intros (inv & Hinv & Hold & Htr). unfold settle.
  destruct (settlements w !! p) as [o'|] eqn:Hp; [by exists inv|].
  rewrite Hinv, notify_all_snoc by done.
  eexists; cbn [invocations settlements service]. split; [done|]. split.
  - by apply (notify_all_inert _ p o old (service w)).
  - by apply notify_tracks.
Qed.

Lemma beforeUnload_tracks reply (w : World) :
  exists inv,
    invocations (beforeUnload toErrorMessage reply w) = invocations w ++ [inv] /\
    settlements (beforeUnload toErrorMessage reply w) = settlements w /\
    tracks toErrorMessage (service w) reply (settlements w) inv
           (service (beforeUnload toErrorMessage reply w)).
Proof.
  unfold beforeUnload.
  change (with_storage _ (with_willShutdown true (service w))) with (accepted reply (service w)).
  pose proof (onBeforeUnload_spec (settlements w) (reason reply) (accepted reply (service w))) as E.
  cbn zeta in E. change (_onWillShutdown (accepted reply (service w))) with (_onWillShutdown (service w)) in E.
  rewrite E; clear E.
  set (vetos := fire (_onWillShutdown (service w)) (reason reply)).
  set (ps := attached vetos).
  set (msgs := map (report toErrorMessage) (failures (settlements w) ps)).
  assert (forall inv s,
    deliver (settlements w)
      (mkInvocation reply (mkAggregation ps (any_vetoing (settlements w) ps) (returned_of vetos)) None)
      (add_messages msgs (accepted reply (service w))) = (inv, s) ->
    tracks toErrorMessage (service w) reply (settlements w) inv s) as Hd.
  { intros inv s. unfold deliver, tracks; cbn [verdict inv_agg inv_reply].
    fold vetos ps msgs. unfold expected_verdict. fold ps. intros E. exists msgs. split; [done|].
    destruct (returned_of vetos) as [b|] eqn:Hr.
    - unfold result_of in E; cbn [returned] in E. by inversion E.
    - rewrite result_of_join in E.
      destruct (all_settled (settlements w) ps); by inversion E. }
  destruct (deliver _ _ _) as [inv s] eqn:Ed.
  exists inv; cbn [invocations settlements service]. split; [done|]. split; [done|].
  by apply Hd.
Qed.

Lemma beforeUnload_verdict reply (w : World) :
  current_verdict (beforeUnload toErrorMessage reply w)
  = expected_verdict (settlements w) (objections reply w).
Proof.
  destruct (beforeUnload_tracks reply w) as (inv & Hinv & _ & msgs & _ & -> & _).
  unfold current_verdict. by rewrite Hinv, last_snoc.
Qed.

Lemma beforeUnload_following reply (w : World) :
  idle w ->
  following toErrorMessage (service w) reply (invocations w) (beforeUnload toErrorMessage reply w).
Proof.
  intros Hidle. destruct (beforeUnload_tracks reply w) as (inv & Hinv & Hs & Htr).
  exists inv. rewrite Hs. done.
Qed.

Lemma run_settles_following s0 reply old sched (w : World) :
  following toErrorMessage s0 reply old w ->
  following toErrorMessage s0 reply old (run toErrorMessage (settles sched) w).
Proof.
  revert w; induction sched as [|[p o] sched IH]; intros w H; [done|].
  cbn. apply IH. by apply settle_following.
Qed.

(** *** One request from rest, characterised *)

Lemma request_run_following reply sched (w : World) :
  idle w ->
  following toErrorMessage (service w) reply (invocations w) (request_run toErrorMessage reply sched w).
Proof.
  intros H. unfold request_run, run. cbn [fold_left step].
  apply run_settles_following. by apply beforeUnload_following.
Qed.

Lemma request_run_spec reply sched (w : World) :
  idle w ->
  let w' := request_run toErrorMessage reply sched w in
  let vetos := objections reply w in
  exists msgs,
    (msgs ≡ₚ map (report toErrorMessage) (failures (settlements w') (attached vetos))) /\
    current_verdict w' = expected_verdict (settlements w') vetos /\
    service w' =
      match expected_verdict (settlements w') vetos with
      | Some (Fulfilled veto) =>
          on_done reply veto (add_messages msgs (accepted reply (service w)))
      | _ => add_messages msgs (accepted reply (service w))
      end.
Proof.
  intros H w' vetos.
  destruct (request_run_following reply sched w H) as (inv & Hinv & _ & msgs & Hm & -> & Hs).
  exists msgs. split; [exact Hm|]. split; [|exact Hs].
  unfold current_verdict. subst w'. rewrite Hinv, last_snoc. done.
Qed.


(** *** Sends and firings along any sequence of events *)

Lemma run_callbacks_outputs p o ps b s :
  let s' := (run_callbacks toErrorMessage p o ps (b, s)).2 in
  ipcSent s' = ipcSent s /\ _onShutdown s' = _onShutdown s /\ windowId s' = windowId s.
Proof. cbn zeta. by rewrite run_callbacks_spec. Qed.

Lemma deliver_outputs settled inv s :
  let r := deliver settled inv s in
  exists X Y,
    ipcSent r.2 = ipcSent s ++ X /\
    _onShutdown r.2 = _onShutdown s ++ Y /\
    windowId r.2 = windowId s /\
    reply_sent (windowId s) r.1 = reply_sent (windowId s) inv ++ X /\
    shutdown_fired r.1 = shutdown_fired inv ++ Y.
Proof.
  cbn zeta. unfold deliver, reply_sent, shutdown_fired.
  destruct (verdict inv) as [v|] eqn:Hv.
  { exists [], []. cbn. rewrite Hv, !app_nil_r. done. }
  destruct (result_of settled (inv_agg inv)) as [[[]|e]|]; cbn.
  - exists [(cancelChannel (inv_reply inv), windowId s)], []. by rewrite ?app_nil_r.
  - by exists [(okChannel (inv_reply inv), windowId s)], [reason (inv_reply inv)].
  - exists [], []. by rewrite ?app_nil_r.
  - exists [], []. by rewrite ?Hv, ?app_nil_r.
Qed.

Lemma notify_outputs p o settled inv s :
  let r := notify toErrorMessage p o settled inv s in
  exists X Y,
    ipcSent r.2 = ipcSent s ++ X /\
    _onShutdown r.2 = _onShutdown s ++ Y /\
    windowId r.2 = windowId s /\
    reply_sent (windowId s) r.1 = reply_sent (windowId s) inv ++ X /\
    shutdown_fired r.1 = shutdown_fired inv ++ Y.
Proof.
  cbn zeta. unfold notify.
  destruct (run_callbacks_outputs p o (promises (inv_agg inv)) (lazyValue (inv_agg inv)) s)
    as (E1 & E2 & E3).
  set (st := run_callbacks _ _ _ _ _) in *.
  destruct (deliver_outputs settled
              (mkInvocation (inv_reply inv)
                 (mkAggregation (promises (inv_agg inv)) st.1 (returned (inv_agg inv)))
                 (verdict inv)) st.2) as (X & Y & H1 & H2 & H3 & H4 & H5).
  exists X, Y. rewrite H1, H2, H3, E1, E2, E3. rewrite E3 in H4. done.
Qed.

Lemma notify_all_outputs p o settled invs s :
  let r := notify_all toErrorMessage p o settled invs s in
  exists X Y,
    ipcSent r.2 = ipcSent s ++ X /\
    _onShutdown r.2 = _onShutdown s ++ Y /\
    windowId r.2 = windowId s /\
    flat_map (reply_sent (windowId s)) r.1 ≡ₚ flat_map (reply_sent (windowId s)) invs ++ X /\
    flat_map shutdown_fired r.1 ≡ₚ flat_map shutdown_fired invs ++ Y.
Proof.
  cbn zeta. revert s; induction invs as [|inv invs IH]; intros s.
  { exists [], []. cbn. by rewrite !app_nil_r. }
  cbn [notify_all].
  destruct (notify_outputs p o settled inv s) as (X1 & Y1 & H1 & H2 & H3 & H4 & H5).
  cbn zeta in *. destruct (notify _ _ _ _ _ _) as [inv' s1]; cbn [fst snd] in *.
  destruct (IH s1) as (X2 & Y2 & G1 & G2 & G3 & G4 & G5).
  destruct (notify_all _ _ _ _ _ _) as [invs' s2]; cbn [fst snd] in *.
  exists (X1 ++ X2), (Y1 ++ Y2). cbn [flat_map].
  rewrite G1, G2, G3, H1, H2, H3, H4, H5. rewrite H3 in G4. rewrite G4, G5.
  rewrite <- !app_assoc. repeat split; try done.
  - apply Permutation_app_head. rewrite !app_assoc. apply Permutation_app_tail.
    apply Permutation_app_comm.
  - apply Permutation_app_head. rewrite !app_assoc. apply Permutation_app_tail.
    apply Permutation_app_comm.
Qed.

Lemma step_outputs_match id sent0 fired0 (w : World) e :
  outputs_match id sent0 fired0 w -> outputs_match id sent0 fired0 (step toErrorMessage w e).
Proof.
  intros (Hid & Hsent & Hfired). destruct e as [reply|p o]; cbn [step].
  - unfold beforeUnload.
    change (with_storage _ (with_willShutdown true (service w))) with (accepted reply (service w)).
    rewrite onBeforeUnload_spec.
    set (agg := mkAggregation _ _ _). set (s3 := add_messages _ _).
    destruct (deliver_outputs (settlements w) (mkInvocation reply agg None) s3)
      as (X & Y & H1 & H2 & H3 & H4 & H5).
    destruct (deliver _ _ _) as [inv s4]; cbn [fst snd] in *.
    unfold outputs_match; cbn [service invocations].
    change (windowId s3) with (windowId (service w)) in *.
    change (ipcSent s3) with (ipcSent (service w)) in *.
    change (_onShutdown s3) with (_onShutdown (service w)) in *.
    rewrite Hid in *. rewrite !flat_map_app. cbn [flat_map]. rewrite !app_nil_r.
    rewrite H1, H2, H4, H5, Hsent, Hfired. cbn. by rewrite !app_assoc.
  - unfold settle. destruct (settlements w !! p); [done|].
    destruct (notify_all_outputs p o (<[p := o]> (settlements w)) (invocations w) (service w))
      as (X & Y & H1 & H2 & H3 & H4 & H5).
    cbn zeta in *. destruct (notify_all _ _ _ _ _ _) as [invs s']; cbn [fst snd] in *.
    unfold outputs_match; cbn [service invocations].
    rewrite Hid in *. rewrite H1, H2, H4, H5, Hsent, Hfired. by rewrite !app_assoc.
Qed.

Lemma run_outputs_match id sent0 fired0 es (w : World) :
  outputs_match id sent0 fired0 w -> outputs_match id sent0 fired0 (run toErrorMessage es w).
Proof.
  revert w; induction es as [|e es IH]; intros w H; [done|].
  cbn. apply IH. by apply step_outputs_match.
Qed.

Lemma boot_outputs_match id st listeners :
  outputs_match id [] [] (boot (JsError:=JsError) id st listeners).
Proof.
  unfold outputs_match, boot; cbn [service invocations flat_map].
  assert (forall s : Service, 
    windowId (fold_left (fun s l => onWillShutdown l s) listeners s) = windowId s
    /\ ipcSent (fold_left (fun s l => onWillShutdown l s) listeners s) = ipcSent s
    /\ _onShutdown (fold_left (fun s l => onWillShutdown l s) listeners s) = _onShutdown s) as H.
  { induction listeners as [|l ls IH]; intros s; [done|]. cbn. by rewrite !(proj1 (IH _)), !(proj1 (proj2 (IH _))), !(proj2 (proj2 (IH _))). }
  destruct (H (constructor id st)) as (-> & -> & ->). done.
Qed.

(** *** Lists of objections without an immediate [true] *)

Lemma returned_of_no_true vetos :
  has_immediate_true vetos = false ->
  returned_of vetos = match vetos with [] => Some false | _ => None end.
Proof. intros H. destruct vetos; [done|]. unfold returned_of. by rewrite H. Qed.

Lemma returned_of_true vetos :
  has_immediate_true vetos = true -> returned_of vetos = Some true.
Proof. intros H. destruct vetos; [done|]. unfold returned_of. by rewrite H. Qed.

Lemma all_settled_attached settled vetos :
  has_immediate_true vetos = false ->
  all_settled settled (attached vetos) = forallb (objection_settled settled) vetos.
Proof.
  induction vetos as [|[[]|p] vetos IH]; cbn; intros H; try done.
  - by apply IH.
  - f_equal. by apply IH.
Qed.

Lemma any_vetoing_attached settled vetos :
  has_immediate_true vetos = false ->
  forallb (objection_settled settled) vetos = true ->
  any_vetoing settled (attached vetos) = negb (forallb (objection_false settled) vetos).
Proof.
  induction vetos as [|[[]|p] vetos IH]; cbn; intros H Hs; try done.
  - by apply IH.
  - apply andb_true_iff in Hs as [Hp Hs].
    unfold any_vetoing in IH. rewrite IH by done.
    destruct (settled !! p) as [[[]|e]|]; try done.
Qed.

Lemma objection_false_all settled vetos :
  forallb (objection_false settled) vetos = true ->
  has_immediate_true vetos = false
  /\ forallb (objection_settled settled) vetos = true
  /\ failures settled (attached vetos) = [].
Proof.
  induction vetos as [|[[]|p] vetos IH]; intros H; try done.
  - by apply IH.
  - cbn [forallb objection_false] in H.
    apply andb_true_iff in H as [Hp H]. destruct (IH H) as (H1 & H2 & H3).
    cbn [attached forallb objection_settled]. rewrite failures_cons, H2, H3.
    split; [exact H1|]. by destruct (settled !! p) as [[[]|e]|].
Qed.

Lemma attached_app vetos1 vetos2 :
  has_immediate_true vetos1 = false ->
  attached (vetos1 ++ vetos2) = attached vetos1 ++ attached vetos2.
Proof.
  induction vetos1 as [|[[]|p] vetos1 IH]; cbn; intros H; try done.
  - by apply IH.
  - f_equal. by apply IH.
Qed.

Lemma failures_app settled ps1 ps2 :
  failures settled (ps1 ++ ps2) = failures settled ps1 ++ failures settled ps2.
Proof. apply omap_app. Qed.

Lemma all_settled_attached_settled settled vetos :
  forallb (objection_settled settled) vetos = true ->
  all_settled settled (attached vetos) = true.
Proof.
  induction vetos as [|[[]|p] vetos IH]; cbn; intros H; try done.
  - by apply IH.
  - apply andb_true_iff in H as [-> H]. by apply IH.
Qed.

(** Once every objection against it has settled, a request taken up from
    rest leaves the world at rest again. *)
Lemma request_run_idle reply sched (w : World) :
  idle w ->
  forallb (objection_settled (settlements (request_run toErrorMessage reply sched w)))
          (objections reply w) = true ->
  idle (request_run toErrorMessage reply sched w).
Proof.
  intros H Hs.
  destruct (request_run_following reply sched w H) as (inv & Hinv & Hold & msgs & _ & -> & _).
  unfold idle. rewrite Hinv. apply Forall_app. split; [exact Hold|].
  apply Forall_cons. split; [|constructor].
  pose proof (all_settled_attached_settled _ _ Hs) as Ha.
  split; cbn [verdict inv_agg promises]; [|exact Ha].
  unfold expected_verdict. fold (objections reply w).
  destruct (returned_of _); [by eexists|]. rewrite Ha. by eexists.
Qed.

Lemma expected_verdict_fulfilled settled vetos e :
  expected_verdict (JsError := JsError) settled vetos <> Some (Rejected e).
Proof.
  unfold expected_verdict. destruct (returned_of _); [done|]. by destruct (all_settled _ _).
Qed.

(** Replace the service and the verdict after a request by what
    [request_run_spec] says they are, and split on the verdict. *)
Ltac read_off_request H :=
  let msgs := fresh "msgs" in
  let Hc := fresh "Hc" in
  let Hs := fresh "Hs" in
  let E := fresh "E" in
  match goal with
  | |- context [request_run _ ?reply ?sched ?w] =>
      destruct (request_run_spec reply sched w H) as (msgs & _ & Hc & Hs)
  end;
  cbn zeta in Hc, Hs; rewrite Hc, Hs;
  destruct (expected_verdict _ _) as [[[]|?]|] eqn:E; cbn;
  try (by apply expected_verdict_fulfilled in E).

(** *** The claims *)


(** C2: when the objections contain an immediate [true], [onBeforeUnload]
    returns [TPromise.as(true)]: the result is settled to [true] whatever
    the state of the deferred objections, and the request is vetoed
    within the handler, before any settlement is processed. *)
Theorem C2_immediate_true_short_circuits reply (w : World) :
  has_immediate_true (objections reply w) = true ->
  let agg := (onBeforeUnload toErrorMessage (settlements w) (reason reply)
                (accepted reply (service w))).1 in
  returned agg = Some true
  /\ (forall settled, result_of settled agg = Some (Fulfilled true))
  /\ current_verdict (beforeUnload toErrorMessage reply w) = Some (Fulfilled true).
Proof.
  intros H agg. subst agg. rewrite onBeforeUnload_spec. cbn [fst].
  change (_onWillShutdown (accepted reply (service w))) with (_onWillShutdown (service w)).
  fold (objections reply w). rewrite (returned_of_true _ H).
  split; [done|]. split; [done|].
  rewrite beforeUnload_verdict. unfold expected_verdict. by rewrite (returned_of_true _ H).
Qed.

(** C3: with no immediate [true], exactly one deferred objection failing
    and every other objection false, the request is vetoed once the
    objections have settled, the message service receives exactly one
    report, of severity [Error], and nothing reaches [done] as a
    failure. *)
Theorem C3_single_failure_is_a_veto reply sched (w : World) vetos1 p e vetos2 :
  idle w ->
  let w' := request_run toErrorMessage reply sched w in
  objections reply w = vetos1 ++ Deferred p :: vetos2 ->
  settlements w' !! p = Some (Rejected e) ->
  forallb (objection_false (settlements w')) (vetos1 ++ vetos2) = true ->
  current_verdict w' = Some (Fulfilled true)
  /\ _messageService (service w')
     = _messageService (service w) ++ [(Error, toErrorMessage e)]
  /\ unhandled (service w') = unhandled (service w).
Proof.
  intros H w' Hv Hp Hf.
  destruct (request_run_spec reply sched w H) as (msgs & Hm & Hc & Hs).
  cbn zeta in Hm, Hc, Hs. fold w' in Hm, Hc, Hs. clearbody w'.
  rewrite Hv in Hm, Hc, Hs.
  rewrite forallb_app in Hf. apply andb_true_iff in Hf as [Hf1 Hf2].
  destruct (objection_false_all _ _ Hf1) as (Ht1 & Hs1 & Hfl1).
  destruct (objection_false_all _ _ Hf2) as (Ht2 & Hs2 & Hfl2).
  assert (has_immediate_true (vetos1 ++ Deferred p :: vetos2) = false) as Ht.
  { unfold has_immediate_true in *. rewrite existsb_app. cbn. by rewrite Ht1, Ht2. }
  assert (forallb (objection_settled (settlements w')) (vetos1 ++ Deferred p :: vetos2) = true)
    as Hall.
  { rewrite forallb_app. cbn [forallb objection_settled]. by rewrite Hs1, Hs2, Hp. }
  assert (expected_verdict (settlements w') (vetos1 ++ Deferred p :: vetos2)
          = Some (Fulfilled true)) as Hev.
  { unfold expected_verdict. rewrite (returned_of_no_true _ Ht).
    replace (match vetos1 ++ Deferred p :: vetos2 with [] => Some false | _ => None end)
      with (@None bool) by (by destruct vetos1).
    rewrite all_settled_attached, Hall, any_vetoing_attached by done.
    rewrite forallb_app. cbn [forallb objection_false]. rewrite Hp. by rewrite andb_false_r. }
  rewrite Hev in Hc, Hs.
  rewrite attached_app in Hm by done. cbn [attached] in Hm.
  rewrite failures_app, failures_cons, Hfl1, Hfl2, Hp in Hm. cbn in Hm.
  apply Permutation_singleton_r in Hm. subst msgs.
  split; [done|]. by rewrite Hs.
Qed.

(** C4: with no immediate [true], the decision exists exactly when every
    deferred objection has settled -- a deferred [true] or failure does
    not bring it forward -- and it is [false] exactly when all objections
    are false. *)
Theorem C4_decision_after_all_settled reply sched (w : World) :
  idle w ->
  has_immediate_true (objections reply w) = false ->
  let w' := request_run toErrorMessage reply sched w in
  current_verdict w'
  = if forallb (objection_settled (settlements w')) (objections reply w)
    then Some (Fulfilled (negb (forallb (objection_false (settlements w')) (objections reply w))))
    else None.
Proof.
  intros H Ht w'.
  destruct (request_run_spec reply sched w H) as (msgs & _ & Hc & _).
  cbn zeta in Hc. fold w' in Hc. clearbody w'. rewrite Hc.
  unfold expected_verdict. rewrite (returned_of_no_true _ Ht).
  destruct (objections reply w) as [|v vetos] eqn:E; [done|]. rewrite <- E in *. clear E.
  rewrite all_settled_attached by done.
  destruct (forallb (objection_settled _) _) eqn:Hs; [|done].
  by rewrite any_vetoing_attached.
Qed.


(** C5: the startup kind fixed by the constructor is a function of the
    value read under the reason key alone; a persisted [RELOAD] gives
    [ReloadedWindow], a persisted [LOAD] gives [ReopenedWindow], any other
    persisted reason and a missing key give [NewWindow]. *)
Theorem C5_startup_kind_classification (id : Z) (st : Storage) (R : ShutdownReason) :
  startupKind (constructor (JsError := JsError) id st)
  = startupKindOf (getInteger _lastShutdownReasonKey WORKSPACE st)
  /\ startupKindOf (JInt (reason_value R))
     = match R with
       | RELOAD => ReloadedWindow
       | LOAD => ReopenedWindow
       | CLOSE | QUIT => NewWindow
       end
  /\ startupKindOf JUndefined = NewWindow
  /\ startupKind (constructor (JsError := JsError) id
       (store _lastShutdownReasonKey (JSON_stringify (reason_value R)) WORKSPACE st))
     = classify_spec (Some R)
  /\ startupKind (constructor (JsError := JsError) id
       (remove _lastShutdownReasonKey WORKSPACE st))
     = classify_spec None.
Proof.
  unfold startupKind, constructor; cbn [_startupKind].
  rewrite getInteger_store, getInteger_remove. by destruct R.
Qed.


(** C7: when the broadcast collects no objection, [onBeforeUnload]
    returns [TPromise.as(false)] and the request proceeds within the
    handler. *)
Theorem C7_no_objection_proceeds reply (w : World) :
  objections reply w = [] ->
  let r := onBeforeUnload toErrorMessage (settlements w) (reason reply)
             (accepted reply (service w)) in
  r = (mkAggregation [] false (Some false), accepted reply (service w))
  /\ (forall settled, result_of settled r.1 = Some (Fulfilled false))
  /\ current_verdict (beforeUnload toErrorMessage reply w) = Some (Fulfilled false).
Proof.
  intros H r. subst r. unfold onBeforeUnload.
  change (_onWillShutdown (accepted reply (service w))) with (_onWillShutdown (service w)).
  fold (objections reply w). rewrite H. split; [done|]. split; [done|].
  by rewrite beforeUnload_verdict, H.
Qed.

(** C8: a request taken up from rest makes the handler send the window
    identifier once the decision is there, on the cancel channel for a
    veto and on the ok channel otherwise; nothing is sent before, and
    nothing else is sent.  Along any sequence of events, overlapping
    requests included, what a window has sent is, up to order, one
    message per decided request, on the channel of its verdict. *)
Theorem C8_reply_on_one_channel reply sched (w : World) es id st listeners :
  idle w ->
  let w' := request_run toErrorMessage reply sched w in
  let w2 := run toErrorMessage es (boot id st listeners) in
  match current_verdict w' with
  | Some (Fulfilled true) =>
      ipcSent (service w')
      = ipcSent (service w) ++ [(cancelChannel reply, windowId (service w))]
  | Some (Fulfilled false) =>
      ipcSent (service w')
      = ipcSent (service w) ++ [(okChannel reply, windowId (service w))]
  | Some (Rejected _) => False
  | None => ipcSent (service w') = ipcSent (service w)
  end
  /\ ipcSent (service w2) ≡ₚ flat_map (reply_sent id) (invocations w2).
Proof.
  intros H w' w2. subst w' w2. split.
  - read_off_request H; done.
  - apply (run_outputs_match id [] [] es), boot_outputs_match.
Qed.

(** C9: for a request taken up from rest, [onShutdown] has fired once,
    with the reason of the request, when the decision is to proceed; it
    has not fired when the request is vetoed, nor before the decision.
    Along any sequence of events, what [onShutdown] has fired is, up to
    order, the reasons of the requests that proceed, once each. *)
Theorem C9_onShutdown_fires_on_proceed reply sched (w : World) es id st listeners :
  idle w ->
  let w' := request_run toErrorMessage reply sched w in
  let w2 := run toErrorMessage es (boot id st listeners) in
  match current_verdict w' with
  | Some (Fulfilled false) =>
      _onShutdown (service w') = _onShutdown (service w) ++ [reason reply]
  | Some (Fulfilled true) | None => _onShutdown (service w') = _onShutdown (service w)
  | Some (Rejected _) => False
  end
  /\ _onShutdown (service w2) ≡ₚ flat_map shutdown_fired (invocations w2).
Proof.
  intros H w' w2. subst w' w2. split.
  - read_off_request H; done.
  - apply (run_outputs_match id [] [] es), boot_outputs_match.
Qed.

(** C10: the reason stored as [JSON.stringify(reason)] is read back
    unchanged by [getInteger]; after a request that proceeds, the next
    window built on the same workspace store classifies exactly that
    reason. *)
Theorem C10_reason_round_trip reply sched (w : World) (id : Z) (st : Storage) :
  idle w ->
  let w' := request_run toErrorMessage reply sched w in
  current_verdict w' = Some (Fulfilled false) ->
  getInteger _lastShutdownReasonKey WORKSPACE
    (store _lastShutdownReasonKey (JSON_stringify (reason_value (reason reply))) WORKSPACE st)
  = JInt (reason_value (reason reply))
  /\ getInteger _lastShutdownReasonKey WORKSPACE (_storageService (service w'))
     = JInt (reason_value (reason reply))
  /\ startupKind (constructor (JsError := JsError) id (_storageService (service w')))
     = classify_spec (Some (reason reply)).
Proof.
  intros H w' Hv. subst w'.
  destruct (request_run_spec reply sched w H) as (msgs & _ & Hc & Hs).
  cbn zeta in Hc, Hs. rewrite Hc in Hv. rewrite Hs, Hv.
  split; [apply getInteger_store|].
  unfold startupKind, constructor, on_done, accepted;
    cbn [_startupKind _storageService send fire_onShutdown add_messages with_storage
         with_willShutdown].
  rewrite getInteger_store. split; [done|]. apply startupKindOf_reason.
Qed.

End HandshakeFacts.

(** * Further properties of the handshake *)

Section HandshakeMore.
Context {JsError : Type} (toErrorMessage : JsError -> string).
Abbreviation Table := (gmap handle (Settled (JsError:=JsError) bool)).
Abbreviation Service := (LifecycleService (JsError:=JsError)).
Implicit Types (settled : Table) (s : Service) (p q : handle)
  (o : Settled (JsError:=JsError) bool) (ps : list handle) (vetos : list Objection).

(** *** What no event touches *)

Lemma untouched_refl s : untouched s s.
Proof. by repeat split. Qed.

Lemma untouched_trans s1 s2 s3 : untouched s1 s2 -> untouched s2 s3 -> untouched s1 s3.
Proof.
  intros (A1 & A2 & A3 & A4 & A5 & A6) (B1 & B2 & B3 & B4 & B5 & B6).
  repeat split; try congruence. intros k Hk. by rewrite B6, A6.
Qed.

Lemma untouched_add_messages ms s : untouched s (add_messages ms s).
Proof. by repeat split. Qed.

Lemma untouched_accepted reply s : untouched s (accepted reply s).
Proof.
  repeat split; try done. intros k Hk. cbn. by rewrite lookup_insert_ne.
Qed.

Lemma untouched_on_done reply veto s : untouched s (on_done reply veto s).
Proof.
  destruct veto; repeat split; try done. intros k Hk. cbn. by rewrite lookup_delete_ne.
Qed.

Lemma result_of_fulfilled settled (a : Aggregation) e :
  result_of (JsError := JsError) settled a <> Some (Rejected e).
Proof.
  destruct a as [ps lazy [b|]]; [done|]. rewrite result_of_join. by destruct (all_settled _ _).
Qed.

Lemma untouched_deliver settled inv s : untouched s (deliver settled inv s).2.
Proof.
  unfold deliver. destruct (verdict inv); [apply untouched_refl|].
  destruct (result_of settled (inv_agg inv)) as [[veto|e]|] eqn:E; cbn [snd].
  - apply untouched_on_done.
  - by apply result_of_fulfilled in E.
  - apply untouched_refl.
Qed.

Lemma untouched_notify p o settled inv s :
  untouched s (notify toErrorMessage p o settled inv s).2.
Proof.
  unfold notify. rewrite run_callbacks_spec. cbn [fst snd].
  eapply untouched_trans; [apply untouched_add_messages|apply untouched_deliver].
Qed.

Lemma untouched_notify_all p o settled invs s :
  untouched s (notify_all toErrorMessage p o settled invs s).2.
Proof.
  revert s; induction invs as [|inv invs IH]; intros s; [apply untouched_refl|].
  cbn [notify_all]. pose proof (untouched_notify p o settled inv s) as H1.
  destruct (notify _ _ _ _ _ _) as [inv' s1]. pose proof (IH s1) as H2.
  destruct (notify_all _ _ _ _ _ _) as [invs' s2]. cbn [snd] in *.
  by eapply untouched_trans.
Qed.

Lemma untouched_step (w : World) e : untouched (service w) (service (step toErrorMessage w e)).
Proof.
  destruct e as [reply|p o]; cbn [step].
  - destruct (beforeUnload_tracks toErrorMessage reply w) as (inv & _ & _ & msgs & _ & _ & ->).
    eapply untouched_trans; [apply untouched_accepted|].
    eapply untouched_trans; [apply (untouched_add_messages msgs)|].
    destruct (expected_verdict _ _) as [[veto|e]|];
      [apply untouched_on_done|apply untouched_refl|apply untouched_refl].
  - unfold settle. destruct (settlements w !! p); [apply untouched_refl|].
    pose proof (untouched_notify_all p o (<[p := o]> (settlements w)) (invocations w) (service w)).
    by destruct (notify_all _ _ _ _ _ _).
Qed.

Lemma untouched_run es (w : World) : untouched (service w) (service (run toErrorMessage es w)).
Proof.
  revert w; induction es as [|e es IH]; intros w; [apply untouched_refl|].
  cbn. eapply untouched_trans; [apply untouched_step|apply IH].
Qed.


(** X2: the startup kind, the window identifier and the registered
    listeners are fixed once the window is built: no sequence of requests
    and settlements changes them. *)
Theorem startupKind_fixed_by_events es (w : World) :
  startupKind (service (run toErrorMessage es w)) = startupKind (service w)
  /\ windowId (service (run toErrorMessage es w)) = windowId (service w)
  /\ _onWillShutdown (service (run toErrorMessage es w)) = _onWillShutdown (service w).
Proof.
  destruct (untouched_run es w) as (H1 & H2 & H3 & _). unfold startupKind. by rewrite H1, H2, H3.
Qed.

(** X3: the service writes the store under the reason key of the workspace
    scope only: every other workspace key and the whole global scope read
    the same after any sequence of events. *)
Theorem store_written_under_reason_key_only es (w : World) (k k' : string) :
  k <> _lastShutdownReasonKey ->
  get k WORKSPACE (_storageService (service (run toErrorMessage es w)))
  = get k WORKSPACE (_storageService (service w))
  /\ get k' GLOBAL (_storageService (service (run toErrorMessage es w)))
     = get k' GLOBAL (_storageService (service w)).
Proof.
  intros Hk. destruct (untouched_run es w) as (_ & _ & _ & _ & H5 & H6).
  unfold get; cbn [scoped]. by rewrite H5, H6.
Qed.

(** X10: whatever the deferred objections do, the promise [onBeforeUnload]
    returns never fails, and no sequence of events brings a failure to
    [done]. *)
Theorem failures_never_reach_done es (w : World) settled (a : Aggregation) e :
  result_of (JsError := JsError) settled a <> Some (Rejected e)
  /\ unhandled (service (run toErrorMessage es w)) = unhandled (service w).
Proof.
  split; [apply result_of_fulfilled|]. by destruct (untouched_run es w) as (_ & _ & _ & -> & _).
Qed.

(** *** Where reports come from *)

Lemma deliver_messages settled inv s :
  _messageService (deliver settled inv s).2 = _messageService s.
Proof.
  unfold deliver. destruct (verdict inv); [done|].
  by destruct (result_of settled (inv_agg inv)) as [[[]|e]|].
Qed.

Lemma reported_mono settled settled' m :
  (forall p x, settled !! p = Some x -> settled' !! p = Some x) ->
  reported toErrorMessage settled m -> reported toErrorMessage settled' m.
Proof. intros H (p & e & Hp & ->). exists p, e. split; [by apply H|done]. Qed.

Lemma failures_reported settled ps :
  Forall (reported toErrorMessage settled) (map (report toErrorMessage) (failures settled ps)).
Proof.
  induction ps as [|p ps IH]; [constructor|].
  rewrite failures_cons, map_app. apply Forall_app. split; [|exact IH].
  destruct (settled !! p) as [[b|e]|] eqn:Hp; cbn; try constructor; [|constructor].
  by exists p, e.
Qed.

Lemma notify_messages p o settled inv s :
  settled !! p = Some o ->
  exists ms,
    _messageService (notify toErrorMessage p o settled inv s).2 = _messageService s ++ ms
    /\ Forall (reported toErrorMessage settled) ms.
Proof.
  intros Hp. unfold notify. rewrite deliver_messages, run_callbacks_spec. cbn [fst snd].
  eexists; split; [done|].
  induction (promises (inv_agg inv)) as [|q ps IH]; [constructor|].
  cbn [flat_map]. rewrite map_app. apply Forall_app. split; [|exact IH].
  destruct (decide (q = p)) as [_|_]; [|constructor].
  destruct o as [b|err]; cbn; constructor; [|constructor]. by exists p, err.
Qed.

Lemma notify_all_messages p o settled invs s :
  settled !! p = Some o ->
  exists ms,
    _messageService (notify_all toErrorMessage p o settled invs s).2 = _messageService s ++ ms
    /\ Forall (reported toErrorMessage settled) ms.
Proof.
  intros Hp. revert s; induction invs as [|inv invs IH]; intros s.
  { exists []. cbn. by rewrite app_nil_r. }
  cbn [notify_all]. destruct (notify_messages p o settled inv s Hp) as (ms1 & E1 & F1).
  destruct (notify _ _ _ _ _ _) as [inv' s1]. destruct (IH s1) as (ms2 & E2 & F2).
  destruct (notify_all _ _ _ _ _ _) as [invs' s2]. cbn [snd] in *.
  exists (ms1 ++ ms2). rewrite E2, E1, app_assoc. split; [done|]. by apply Forall_app.
Qed.

Lemma step_settlements_mono (w : World) e p x :
  settlements w !! p = Some x -> settlements (step toErrorMessage w e) !! p = Some x.
Proof.
  intros Hp. destruct e as [reply|q o]; cbn [step].
  - by destruct (beforeUnload_tracks toErrorMessage reply w) as (_ & _ & -> & _).
  - unfold settle. destruct (settlements w !! q) eqn:Hq; [done|].
    destruct (notify_all _ _ _ _ _ _). cbn. rewrite lookup_insert_ne; [done|]. congruence.
Qed.

Lemma step_messages (w : World) e :
  exists ms,
    _messageService (service (step toErrorMessage w e)) = _messageService (service w) ++ ms
    /\ Forall (reported toErrorMessage (settlements (step toErrorMessage w e))) ms.
Proof.
  destruct e as [reply|p o]; cbn [step].
  - destruct (beforeUnload_tracks toErrorMessage reply w)
      as (inv & _ & Hs & msgs & Hm & _ & E).
    rewrite Hs. exists msgs. split.
    + rewrite E. by destruct (expected_verdict _ _) as [[[]|e]|].
    + rewrite Hm. apply failures_reported.
  - unfold settle. destruct (settlements w !! p) eqn:Hp.
    { exists []. by rewrite app_nil_r. }
    destruct (notify_all_messages p o (<[p := o]> (settlements w)) (invocations w) (service w))
      as (ms & E & F); [apply lookup_insert_eq|].
    destruct (notify_all _ _ _ _ _ _). by exists ms.
Qed.

(** X11: the message service only ever receives reports of severity [Error]
    that render the failure of a deferred objection which has failed;
    earlier messages are never removed or reordered. *)
Theorem reports_stem_from_failures es (w : World) :
  exists ms,
    _messageService (service (run toErrorMessage es w)) = _messageService (service w) ++ ms
    /\ Forall (reported toErrorMessage (settlements (run toErrorMessage es w))) ms
    /\ Forall (fun m => m.1 = Error) ms.
Proof.
  assert (exists ms,
    _messageService (service (run toErrorMessage es w)) = _messageService (service w) ++ ms
    /\ Forall (reported toErrorMessage (settlements (run toErrorMessage es w))) ms) as (ms & E & F).
  { revert w; induction es as [|e es IH]; intros w.
    { exists []. cbn. by rewrite app_nil_r. }
    cbn [run fold_left]. destruct (step_messages w e) as (ms1 & E1 & F1).
    destruct (IH (step toErrorMessage w e)) as (ms2 & E2 & F2).
    exists (ms1 ++ ms2). unfold run in *. rewrite E2, E1, app_assoc. split; [done|].
    apply Forall_app. split; [|done].
    eapply Forall_impl; [exact F1|]. intros m. apply reported_mono.
    clear. generalize (step toErrorMessage w e). induction es as [|e' es IH]; intros w' p x H; [done|].
    cbn. apply IH. by apply step_settlements_mono. }
  exists ms. split; [done|]. split; [done|].
  eapply Forall_impl; [exact F|]. by intros m (p & e & _ & ->).
Qed.


(** *** The constructor and the store *)

(** X1: the constructor consumes the persisted reason: the key is gone
    from the store it leaves behind, so a window built on that store
    without a shutdown in between starts as [NewWindow], whatever the
    first one found. *)
Theorem constructor_consumes_reason (id id' : Z) (st : Storage) :
  get _lastShutdownReasonKey WORKSPACE
    (_storageService (constructor (JsError := JsError) id st)) = None
  /\ startupKind
       (constructor (JsError := JsError) id'
          (_storageService (constructor (JsError := JsError) id st)))
     = NewWindow.
Proof.
  unfold startupKind, constructor; cbn [_storageService _startupKind].
  rewrite getInteger_remove. split; [|done]. unfold get, remove; cbn. apply lookup_delete_eq.
Qed.


(** *** Requests decided within the handler, in any world *)

Lemma immediate_veto_in_any_world_aux reply (w : World) :
  has_immediate_true (objections reply w) = true ->
  get _lastShutdownReasonKey WORKSPACE
    (_storageService (service (beforeUnload toErrorMessage reply w))) = None
  /\ willShutdown (service (beforeUnload toErrorMessage reply w)) = Some false.
Proof.
  intros Ht.
  destruct (beforeUnload_tracks toErrorMessage reply w) as (inv & _ & _ & msgs & _ & _ & ->).
  unfold expected_verdict. fold (objections reply w). rewrite (returned_of_true _ Ht). cbn.
  split; [apply lookup_delete_eq|done].
Qed.


(** X5: an immediate [true] vetoes the request within the handler whatever
    else is going on, requests still in flight included: when the handler
    returns, the reason key is absent, [willShutdown] is [false], the
    window identifier has gone out on the cancel channel as the last
    message sent, and [onShutdown] has not fired. *)
Theorem immediate_veto_in_any_world reply (w : World) :
  has_immediate_true (objections reply w) = true ->
  let w' := beforeUnload toErrorMessage reply w in
  get _lastShutdownReasonKey WORKSPACE (_storageService (service w')) = None
  /\ willShutdown (service w') = Some false
  /\ ipcSent (service w') = ipcSent (service w) ++ [(cancelChannel reply, windowId (service w))]
  /\ _onShutdown (service w') = _onShutdown (service w).
Proof.
  intros Ht w'. subst w'.
  destruct (beforeUnload_tracks toErrorMessage reply w) as (inv & _ & _ & msgs & _ & _ & ->).
  unfold expected_verdict. fold (objections reply w). rewrite (returned_of_true _ Ht). cbn.
  split; [apply lookup_delete_eq|done].
Qed.

(** X6: a request nobody objects to proceeds within the handler whatever
    else is going on: when the handler returns, the reason key holds the
    stringified reason, [willShutdown] is [true], [onShutdown] has fired
    with the reason, the window identifier has gone out on the ok channel
    and nothing has been shown. *)
Theorem no_objection_in_any_world reply (w : World) :
  objections reply w = [] ->
  let w' := beforeUnload toErrorMessage reply w in
  get _lastShutdownReasonKey WORKSPACE (_storageService (service w'))
  = Some (JSON_stringify (reason_value (reason reply)))
  /\ willShutdown (service w') = Some true
  /\ ipcSent (service w') = ipcSent (service w) ++ [(okChannel reply, windowId (service w))]
  /\ _onShutdown (service w') = _onShutdown (service w) ++ [reason reply]
  /\ _messageService (service w') = _messageService (service w).
Proof.
  intros Ho w'. subst w'.
  destruct (beforeUnload_tracks toErrorMessage reply w) as (inv & _ & _ & msgs & Hm & _ & ->).
  fold (objections reply w) in *. rewrite Ho in *. cbn in Hm.
  apply Permutation_nil_r in Hm. subst msgs. cbn.
  rewrite app_nil_r. split; [apply lookup_insert_eq|done].
Qed.

(** *** The reports of one request *)

Lemma attached_deferred_handles vetos :
  has_immediate_true vetos = false -> attached vetos = deferred_handles vetos.
Proof.
  induction vetos as [|[[]|p] vetos IH]; cbn; intros H; try done.
  - by apply IH.
  - f_equal. by apply IH.
Qed.

Lemma request_run_messages reply sched (w : World) :
  idle w ->
  _messageService (service (request_run toErrorMessage reply sched w))
  ≡ₚ _messageService (service w)
     ++ map (report toErrorMessage)
          (failures (settlements (request_run toErrorMessage reply sched w))
                    (attached (objections reply w))).
Proof.
  intros H.
  destruct (request_run_spec toErrorMessage reply sched w H) as (msgs & Hm & _ & Hs).
  cbn zeta in Hm, Hs. rewrite Hs, <- Hm.
  by destruct (expected_verdict _ _) as [[[]|e]|].
Qed.


(** X13: around the first immediate [true], for a request taken up from
    rest: the verdict is a veto whatever has settled; the deferred
    objections listed before it still have their failures reported, also
    after the veto; those listed after it are never listened to. *)
Theorem reports_around_immediate_true reply sched (w : World) vetos1 vetos2 :
  idle w ->
  objections reply w = vetos1 ++ Immediate true :: vetos2 ->
  has_immediate_true vetos1 = false ->
  let w' := request_run toErrorMessage reply sched w in
  current_verdict w' = Some (Fulfilled true)
  /\ _messageService (service w')
     ≡ₚ _messageService (service w)
        ++ map (report toErrorMessage) (failures (settlements w') (deferred_handles vetos1)).
Proof.
  intros H Ho Ht w'. subst w'. split.
  - destruct (request_run_spec toErrorMessage reply sched w H) as (msgs & _ & Hc & _).
    cbn zeta in Hc. rewrite Hc, Ho. unfold expected_verdict.
    rewrite returned_of_true; [done|].
    unfold has_immediate_true. rewrite existsb_app. cbn. by rewrite orb_true_r.
  - rewrite request_run_messages, Ho, attached_app by done.
    cbn [attached]. by rewrite app_nil_r, attached_deferred_handles.
Qed.

(** X14: a deferred objection that never settles stalls the request: with
    no immediate [true], as long as one deferred objection of the list is
    unsettled there is no verdict, nothing has been sent or fired, and
    [willShutdown] stays [true]. *)
Theorem unsettled_objection_stalls reply sched (w : World) p :
  idle w ->
  has_immediate_true (objections reply w) = false ->
  Deferred p ∈ objections reply w ->
  let w' := request_run toErrorMessage reply sched w in
  settlements w' !! p = None ->
  current_verdict w' = None
  /\ ipcSent (service w') = ipcSent (service w)
  /\ _onShutdown (service w') = _onShutdown (service w)
  /\ willShutdown (service w') = Some true.
Proof.
  intros H Ht Hin w' Hp. subst w'.
  destruct (request_run_spec toErrorMessage reply sched w H) as (msgs & _ & Hc & Hs).
  cbn zeta in Hc, Hs.
  assert (expected_verdict (settlements (request_run toErrorMessage reply sched w))
            (objections reply w) = None) as E.
  { unfold expected_verdict. rewrite (returned_of_no_true _ Ht).
    destruct (objections reply w) as [|v vetos] eqn:Eo; [by apply elem_of_nil in Hin|].
    rewrite <- Eo in *. rewrite all_settled_attached by done.
    destruct (forallb _ _) eqn:Hf; [|done].
    rewrite forallb_forall in Hf. apply list_elem_of_In in Hin.
    specialize (Hf _ Hin). unfold objection_settled in Hf. by rewrite Hp in Hf. }
  rewrite E in Hc, Hs. by rewrite Hc, Hs.
Qed.


(** *** The order of settlements *)

Lemma settlements_settle p o (w : World) :
  settlements (settle toErrorMessage p o w) = settle_table (settlements w) (p, o).
Proof.
  unfold settle, settle_table; cbn [fst snd].
  destruct (settlements w !! p); [done|]. by destruct (notify_all _ _ _ _ _ _).
Qed.

Lemma settlements_request_run reply sched (w : World) :
  settlements (request_run toErrorMessage reply sched w)
  = fold_left settle_table sched (settlements w).
Proof.
  unfold request_run, run. cbn [fold_left step].
  destruct (beforeUnload_tracks toErrorMessage reply w) as (_ & _ & <- & _).
  generalize (beforeUnload toErrorMessage reply w).
  induction sched as [|[p o] sched IH]; intros w1; [done|].
  cbn. rewrite IH. by rewrite settlements_settle.
Qed.

Lemma settle_table_comm settled (x y : handle * Settled (JsError := JsError) bool) :
  x.1 <> y.1 ->
  settle_table (settle_table settled x) y = settle_table (settle_table settled y) x.
Proof.
  destruct x as [p o], y as [q o']; cbn [fst]. intros Hne. unfold settle_table; cbn [fst snd].
  destruct (settled !! p) eqn:Hp, (settled !! q) eqn:Hq;
    rewrite ?Hp, ?Hq, ?lookup_insert_ne, ?Hp, ?Hq by done; try done.
  by apply insert_insert_ne.
Qed.

Lemma fold_settle_table_perm (sched sched' : list (handle * Settled (JsError := JsError) bool))
    settled :
  sched ≡ₚ sched' -> NoDup sched.*1 ->
  fold_left settle_table sched settled = fold_left settle_table sched' settled.
Proof.
  intros Hperm. revert settled.
  induction Hperm as [|x l l' _ IH|x y l|l l' l'' H1 IH1 H2 IH2]; intros settled Hnd.
  - done.
  - cbn. apply IH. by apply NoDup_cons_1_2 in Hnd.
  - cbn. rewrite settle_table_comm; [done|].
    cbn in Hnd. apply NoDup_cons_1_1 in Hnd. set_solver.
  - rewrite IH1 by done. apply IH2. by rewrite <- H1.
Qed.

(** X15: the outcome of a request taken up from rest does not depend on the
    order in which the deferred objections settle: two schedules that
    settle the same promises the same way, in different orders, give the
    same verdict, store, flag, sends and firings, and the same reports up
    to order. *)
Theorem outcome_independent_of_order reply sched sched' (w : World) :
  idle w ->
  NoDup sched.*1 ->
  sched ≡ₚ sched' ->
  let w1 := request_run toErrorMessage reply sched w in
  let w2 := request_run toErrorMessage reply sched' w in
  current_verdict w1 = current_verdict w2
  /\ _storageService (service w1) = _storageService (service w2)
  /\ willShutdown (service w1) = willShutdown (service w2)
  /\ ipcSent (service w1) = ipcSent (service w2)
  /\ _onShutdown (service w1) = _onShutdown (service w2)
  /\ _messageService (service w1) ≡ₚ _messageService (service w2).
Proof.
  intros H Hnd Hperm w1 w2. subst w1 w2.
  destruct (request_run_spec toErrorMessage reply sched w H) as (msgs1 & Hm1 & Hc1 & Hs1).
  destruct (request_run_spec toErrorMessage reply sched' w H) as (msgs2 & Hm2 & Hc2 & Hs2).
  cbn zeta in *. rewrite !settlements_request_run in *.
  rewrite <- (fold_settle_table_perm sched sched' _ Hperm Hnd) in *.
  rewrite Hc1, Hc2, Hs1, Hs2.
  assert (msgs1 ≡ₚ msgs2) as Hm by (by rewrite Hm1, Hm2).
  destruct (expected_verdict _ _) as [[[]|e]|]; cbn; by rewrite ?Hm.
Qed.

(** *** Requests and replies *)

Lemma notify_all_length p o settled invs s :
  length (notify_all toErrorMessage p o settled invs s).1 = length invs.
Proof.
  revert s; induction invs as [|inv invs IH]; intros s; [done|].
  cbn [notify_all]. destruct (notify _ _ _ _ _ _) as [inv' s1].
  specialize (IH s1). destruct (notify_all _ _ _ _ _ _). cbn in *. by rewrite IH.
Qed.

Lemma run_invocations_length es (w : World) :
  length (invocations (run toErrorMessage es w)) = length (invocations w) + requests es.
Proof.
  revert w; induction es as [|e es IH]; intros w; [unfold requests; cbn; lia|].
  cbn [run fold_left]. unfold run in IH. rewrite IH. unfold requests.
  destruct e as [reply|p o]; cbn [step List.filter is_request].
  - destruct (beforeUnload_tracks toErrorMessage reply w) as (inv & -> & _).
    rewrite length_app. cbn. lia.
  - unfold settle. destruct (settlements w !! p); [cbn; lia|].
    pose proof (notify_all_length p o (<[p := o]> (settlements w)) (invocations w) (service w)).
    destruct (notify_all _ _ _ _ _ _). cbn in *. lia.
Qed.

Lemma deliver_verdict_fulfilled settled inv s :
  (forall e, verdict inv <> Some (Rejected e)) ->
  forall e, verdict (deliver settled inv s).1 <> Some (Rejected e).
Proof.
  intros H e. unfold deliver. destruct (verdict inv) eqn:Hv; [cbn [fst]; rewrite Hv; apply H|].
  destruct (result_of settled (inv_agg inv)) as [[b|e']|] eqn:E; cbn [fst verdict]; try done.
  - by apply result_of_fulfilled in E.
  - by rewrite Hv.
Qed.

Lemma notify_all_verdicts_fulfilled p o settled invs s :
  verdicts_fulfilled invs ->
  verdicts_fulfilled (notify_all toErrorMessage p o settled invs s).1.
Proof.
  intros H. revert s; induction H as [|inv invs Hi _ IH]; intros s; [constructor|].
  cbn [notify_all].
  pose proof (deliver_verdict_fulfilled settled
    (mkInvocation (inv_reply inv)
       (mkAggregation (promises (inv_agg inv))
          (run_callbacks toErrorMessage p o (promises (inv_agg inv))
             (lazyValue (inv_agg inv), s)).1 (returned (inv_agg inv)))
       (verdict inv))
    (run_callbacks toErrorMessage p o (promises (inv_agg inv))
       (lazyValue (inv_agg inv), s)).2 Hi) as Hd.
  fold (notify toErrorMessage p o settled inv s) in Hd.
  destruct (notify _ _ _ _ _ _) as [inv' s1]. specialize (IH s1).
  destruct (notify_all _ _ _ _ _ _). cbn in *. by constructor.
Qed.

Lemma run_verdicts_fulfilled es (w : World) :
  verdicts_fulfilled (invocations w) ->
  verdicts_fulfilled (invocations (run toErrorMessage es w)).
Proof.
  revert w; induction es as [|e es IH]; intros w H; [done|].
  cbn [run fold_left]. apply IH. destruct e as [reply|p o]; cbn [step].
  - destruct (beforeUnload_tracks toErrorMessage reply w) as (inv & -> & _ & msgs & _ & -> & _).
    apply Forall_app. split; [done|]. constructor; [|constructor].
    intros e. apply expected_verdict_fulfilled.
  - unfold settle. destruct (settlements w !! p); [done|].
    pose proof (notify_all_verdicts_fulfilled p o (<[p := o]> (settlements w))
                  (invocations w) (service w) H).
    by destruct (notify_all _ _ _ _ _ _).
Qed.

Lemma replies_and_waiting id (invs : list (Invocation (JsError := JsError))) :
  verdicts_fulfilled invs ->
  length (flat_map (reply_sent id) invs)
  + length (List.filter (fun inv => negb (is_settled (verdict inv))) invs)
  = length invs.
Proof.
  induction 1 as [|inv invs Hi _ IH]; [done|].
  cbn [flat_map List.filter]. rewrite length_app. unfold reply_sent at 1.
  destruct (verdict inv) as [[[]|e]|] eqn:Hv; cbn; try lia. by destruct (Hi e).
Qed.

(** X16: from construction on, along any sequence of events, the number of
    replies sent plus the number of requests still waiting for their
    decision is the number of requests received: no request is answered
    twice and none is answered before it is decided. *)
Theorem replies_and_waiting_requests es id st listeners :
  let w := run toErrorMessage es (boot id st listeners) in
  length (invocations w) = requests es
  /\ length (ipcSent (service w)) + waiting w = requests es.
Proof.
  intros w. subst w.
  pose proof (run_invocations_length es (boot id st listeners)) as Hl. cbn in Hl.
  split; [done|].
  destruct (run_outputs_match toErrorMessage id [] [] es _ (boot_outputs_match id st listeners))
    as (_ & Hs & _).
  cbn in Hs. rewrite Hs. unfold waiting. rewrite replies_and_waiting; [done|].
  apply run_verdicts_fulfilled. constructor.
Qed.

(** *** One request after another *)

(** X17: two requests handled one after the other from rest, the second
    arriving once the objections against the first have all settled, are
    each answered once, in order, on the channel of their own verdict;
    flag and store afterwards reflect the second request alone. *)
Theorem requests_in_sequence reply1 sched1 reply2 sched2 (w : World) veto1 veto2 :
  idle w ->
  let w1 := request_run toErrorMessage reply1 sched1 w in
  let w2 := request_run toErrorMessage reply2 sched2 w1 in
  forallb (objection_settled (settlements w1)) (objections reply1 w) = true ->
  current_verdict w1 = Some (Fulfilled veto1) ->
  current_verdict w2 = Some (Fulfilled veto2) ->
  ipcSent (service w2)
  = ipcSent (service w)
    ++ [(channel_of reply1 veto1, windowId (service w));
        (channel_of reply2 veto2, windowId (service w))]
  /\ willShutdown (service w2) = Some (negb veto2)
  /\ get _lastShutdownReasonKey WORKSPACE (_storageService (service w2))
     = if veto2 then None else Some (JSON_stringify (reason_value (reason reply2))).
Proof.
  intros H w1 w2 Hall Hv1 Hv2. subst w1 w2.
  pose proof (request_run_idle toErrorMessage reply1 sched1 w H Hall) as H1.
  destruct (request_run_spec toErrorMessage reply1 sched1 w H) as (msgs1 & _ & Hc1 & Hs1).
  destruct (request_run_spec toErrorMessage reply2 sched2 _ H1) as (msgs2 & _ & Hc2 & Hs2).
  cbn zeta in *. rewrite Hc1 in Hv1. rewrite Hc2 in Hv2. rewrite Hv2 in Hs2. rewrite Hv1 in Hs1.
  rewrite Hs2, Hs1. destruct veto1, veto2; cbn; rewrite <- ?app_assoc;
    (split; [done|]); (split; [done|]);
    first [apply lookup_delete_eq | apply lookup_insert_eq].
Qed.


(** *** What settlements can do to flag and key *)

Lemma only_retracts_refl s : only_retracts s s.
Proof. split; by left. Qed.

Lemma only_retracts_trans s1 s2 s3 :
  only_retracts s1 s2 -> only_retracts s2 s3 -> only_retracts s1 s3.
Proof.
  intros [[A1|A1] [A2|A2]] [[B1|B1] [B2|B2]]; split;
    first [by right | left; congruence | right; congruence].
Qed.

Lemma only_retracts_deliver settled inv s : only_retracts s (deliver settled inv s).2.
Proof.
  unfold deliver. destruct (verdict inv); [apply only_retracts_refl|].
  destruct (result_of settled (inv_agg inv)) as [[[]|e]|]; cbn [snd];
    try apply only_retracts_refl.
  - split; right; [done|]. unfold get; cbn. apply lookup_delete_eq.
  - split; by left.
  - split; by left.
Qed.

Lemma only_retracts_notify_all p o settled invs s :
  only_retracts s (notify_all toErrorMessage p o settled invs s).2.
Proof.
  revert s; induction invs as [|inv invs IH]; intros s; [apply only_retracts_refl|].
  cbn [notify_all].
  assert (only_retracts s (notify toErrorMessage p o settled inv s).2) as H1.
  { unfold notify. rewrite run_callbacks_spec. cbn [fst snd].
    eapply only_retracts_trans; [|apply only_retracts_deliver]. split; by left. }
  destruct (notify _ _ _ _ _ _) as [inv' s1]. pose proof (IH s1) as H2.
  destruct (notify_all _ _ _ _ _ _) as [invs' s2]. cbn [snd] in *.
  by eapply only_retracts_trans.
Qed.

Lemma only_retracts_settles sched (w : World) :
  only_retracts (service w) (service (run toErrorMessage (settles sched) w)).
Proof.
  revert w; induction sched as [|[p o] sched IH]; intros w; [apply only_retracts_refl|].
  cbn. eapply only_retracts_trans; [|apply IH].
  unfold settle. destruct (settlements w !! p); [apply only_retracts_refl|].
  pose proof (only_retracts_notify_all p o (<[p := o]> (settlements w)) (invocations w)
                (service w)).
  by destruct (notify_all _ _ _ _ _ _).
Qed.


(** X9: when a request is vetoed at once while an earlier one is still
    awaiting its deferred objections, the veto removes the reason the
    earlier request persisted; whatever the earlier request then does,
    also proceeding, the key stays absent and the next window starts as
    [NewWindow]. *)
Theorem later_veto_clears_earlier_reason reply1 reply2 sched (w : World) (id : Z) :
  has_immediate_true (objections reply2 w) = true ->
  let w' := run toErrorMessage (BeforeUnload reply1 :: BeforeUnload reply2 :: settles sched) w in
  get _lastShutdownReasonKey WORKSPACE (_storageService (service w')) = None
  /\ startupKind (constructor (JsError := JsError) id (_storageService (service w')))
     = NewWindow.
Proof.
  intros Ht w'. subst w'. unfold run. cbn [fold_left step].
  set (w1 := beforeUnload toErrorMessage reply1 w).
  assert (has_immediate_true (objections reply2 w1) = true) as Ht1.
  { unfold objections in *.
    destruct (untouched_step w (BeforeUnload reply1)) as (_ & _ & E & _).
    cbn [step] in E. fold w1 in E. by rewrite E. }
  destruct (immediate_veto_in_any_world_aux reply2 w1 Ht1) as (Hk & Hf).
  destruct (only_retracts_settles sched (beforeUnload toErrorMessage reply2 w1)) as [_ [B|B]].
  - unfold run in B. split; [congruence|].
    unfold startupKind, constructor, getInteger; cbn [_startupKind].
    unfold run. by rewrite B, Hk.
  - unfold run in B. split; [done|].
    unfold startupKind, constructor, getInteger; cbn [_startupKind].
    unfold run. by rewrite B.
Qed.

(** *** The flag before the first request *)

Lemma run_flag_assigned es (w : World) :
  is_Some (willShutdown (service w)) ->
  is_Some (willShutdown (service (run toErrorMessage es w))).
Proof.
  revert w; induction es as [|e es IH]; intros w H; [done|].
  cbn [run fold_left]. apply IH. destruct e as [reply|p o]; cbn [step].
  - destruct (beforeUnload_tracks toErrorMessage reply w) as (inv & _ & _ & msgs & _ & _ & ->).
    by destruct (expected_verdict _ _) as [[[]|e]|].
  - destruct (only_retracts_settles [(p, o)] w) as [[A|A] _]; cbn in A;
      unfold willShutdown in *; rewrite A; [done|by eexists].
Qed.

Lemma run_without_requests es (w : World) :
  invocations w = [] -> requests es = 0 ->
  service (run toErrorMessage es w) = service w.
Proof.
  revert w; induction es as [|[reply|p o] es IH]; intros w Hi Hr; [done|done|].
  cbn [run fold_left step]. unfold run in IH. rewrite IH.
  - unfold settle. rewrite Hi. by destruct (settlements w !! p).
  - unfold settle. rewrite Hi. by destruct (settlements w !! p).
  - exact Hr.
Qed.

Lemma run_with_request es (w : World) :
  requests es <> 0 -> is_Some (willShutdown (service (run toErrorMessage es w))).
Proof.
  revert w; induction es as [|[reply|p o] es IH]; intros w Hr; [done| |].
  - cbn [run fold_left step]. apply run_flag_assigned.
    destruct (beforeUnload_tracks toErrorMessage reply w) as (inv & _ & _ & msgs & _ & _ & ->).
    by destruct (expected_verdict _ _) as [[[]|e]|].
  - cbn [run fold_left step]. apply IH. exact Hr.
Qed.

(** X4: from construction on, [willShutdown] is unassigned exactly as long
    as no request has been received; from the first request on it is a
    boolean. *)
Theorem willShutdown_unassigned_until_first_request es id st listeners :
  willShutdown (service (run toErrorMessage es (boot id st listeners))) = None
  <-> requests es = 0.
Proof.
  split.
  - intros Hn. destruct (decide (requests es = 0)) as [|Hne]; [done|].
    destruct (run_with_request es (boot id st listeners) Hne) as [b Hb]. congruence.
  - intros Hr. rewrite run_without_requests; [|done|done].
    unfold boot; cbn [service].
    assert (forall s : Service, willShutdown s = None ->
              willShutdown (fold_left (fun s l => onWillShutdown l s) listeners s) = None) as H.
    { induction listeners as [|l ls IH]; intros s Hs; [done|]. cbn. by apply IH. }
    by apply H.
Qed.

End HandshakeMore.

(** * The claims at sample windows *)

Lemma window_idle (listeners : list Listener) : idle (window listeners).
Proof. unfold idle, window, boot; cbn [invocations]. constructor. Qed.



Lemma C2_immediate_true_short_circuits_witness :
  has_immediate_true (objections close_request (window [defers_twice; objects_at_once])) = true
  /\ current_verdict
       (beforeUnload text_of_error close_request (window [defers_twice; objects_at_once]))
     = Some (Fulfilled true).
Proof.
  split; [reflexivity|].
  apply (C2_immediate_true_short_circuits text_of_error close_request
           (window [defers_twice; objects_at_once])).
  reflexivity.
Defined.

Lemma C3_single_failure_is_a_veto_witness :
  let w := window [defers_twice] in
  let sched := [(2, Fulfilled false); (1, Rejected "disk full")] in
  let w' := request_run text_of_error close_request sched w in
  idle w
  /\ objections close_request w = [Immediate false] ++ Deferred 1 :: [Deferred 2]
  /\ settlements w' !! 1 = Some (Rejected "disk full")
  /\ forallb (objection_false (settlements w')) ([Immediate false] ++ [Deferred 2]) = true
  /\ current_verdict w' = Some (Fulfilled true)
  /\ _messageService (service w') = [(Error, "disk full")].
Proof.
  intros w sched w'.
  assert (idle w) as Hi by apply window_idle.
  assert (objections close_request w = [Immediate false] ++ Deferred 1 :: [Deferred 2])
    as Ho by reflexivity.
  assert (settlements w' !! 1 = Some (Rejected "disk full")) as Hp
    by (vm_compute; reflexivity).
  assert (forallb (objection_false (settlements w')) ([Immediate false] ++ [Deferred 2]) = true)
    as Hf by (vm_compute; reflexivity).
  destruct (C3_single_failure_is_a_veto text_of_error close_request sched w
              [Immediate false] 1 "disk full" [Deferred 2] Hi Ho Hp Hf) as (Hv & Hm & _).
  repeat split; assumption.
Defined.

Lemma C4_decision_after_all_settled_witness :
  let w := window [defers_twice] in
  idle w
  /\ has_immediate_true (objections reload_request w) = false
  /\ current_verdict (request_run text_of_error reload_request [(1, Fulfilled true)] w) = None
  /\ current_verdict
       (request_run text_of_error reload_request
          [(1, Fulfilled true); (2, Fulfilled false)] w)
     = Some (Fulfilled true).
Proof.
  intros w.
  split; [apply window_idle|]. split; [reflexivity|]. split.
  - exact (C4_decision_after_all_settled text_of_error reload_request
             [(1, Fulfilled true)] w (window_idle _) eq_refl).
  - exact (C4_decision_after_all_settled text_of_error reload_request
             [(1, Fulfilled true); (2, Fulfilled false)] w (window_idle _) eq_refl).
Defined.



Lemma C7_no_objection_proceeds_witness :
  let w := window [no_objection; no_objection] in
  objections close_request w = []
  /\ current_verdict (beforeUnload text_of_error close_request w) = Some (Fulfilled false).
Proof.
  intros w. split; [reflexivity|].
  apply (C7_no_objection_proceeds text_of_error close_request w). reflexivity.
Defined.

Lemma C8_reply_on_one_channel_witness :
  let w := request_run text_of_error close_request [] (window [objects_to_close]) in
  idle w
  /\ ipcSent (service w) = [("vscode:cancel1", 1%Z)]
  /\ ipcSent (service (request_run text_of_error reload_request [] w))
     = [("vscode:cancel1", 1%Z); ("vscode:ok2", 1%Z)].
Proof.
  intros w.
  assert (idle w) as Hi.
  { apply request_run_idle; [apply window_idle|reflexivity]. }
  split; [exact Hi|]. split.
  - exact (proj1 (C8_reply_on_one_channel text_of_error close_request []
                    (window [objects_to_close]) [] 1 empty_storage [] (window_idle _))).
  - exact (proj1 (C8_reply_on_one_channel text_of_error reload_request [] w
                    [] 1 empty_storage [] Hi)).
Defined.

Lemma C9_onShutdown_fires_on_proceed_witness :
  let w := window [defers_twice] in
  idle w
  /\ _onShutdown (service (request_run text_of_error reload_request
                             [(2, Fulfilled false); (1, Fulfilled false)] w))
     = [RELOAD].
Proof.
  intros w. split; [apply window_idle|].
  exact (proj1 (C9_onShutdown_fires_on_proceed text_of_error reload_request
                  [(2, Fulfilled false); (1, Fulfilled false)] w [] 1 empty_storage []
                  (window_idle _))).
Defined.

Lemma C10_reason_round_trip_witness :
  let w := window [no_objection] in
  let w' := request_run text_of_error reload_request [] w in
  idle w
  /\ current_verdict w' = Some (Fulfilled false)
  /\ startupKind (constructor (JsError := string) 2 (_storageService (service w')))
     = ReloadedWindow.
Proof.
  intros w w'. split; [apply window_idle|]. split; [reflexivity|].
  exact (proj2 (proj2 (C10_reason_round_trip text_of_error reload_request [] w 2 empty_storage
                         (window_idle _) eq_refl))).
Defined.

(** * Further properties at sample windows *)

Lemma store_written_under_reason_key_only_witness :
  let w := mkWorld (constructor (JsError := string) 1 used_storage) ∅ [] in
  let w' := run text_of_error [BeforeUnload close_request; BeforeUnload reload_request] w in
  "editor.state" <> _lastShutdownReasonKey
  /\ get "editor.state" WORKSPACE (_storageService (service w')) = Some "open"
  /\ get "workbench.theme" GLOBAL (_storageService (service w')) = Some "dark".
Proof.
  intros w w'. split; [discriminate|].
  exact (store_written_under_reason_key_only text_of_error
           [BeforeUnload close_request; BeforeUnload reload_request] w
           "editor.state" "workbench.theme" ltac:(discriminate)).
Defined.


Lemma immediate_veto_in_any_world_witness :
  let w := beforeUnload text_of_error reload_request (window [defers_on_reload; objects_to_close]) in
  let w' := beforeUnload text_of_error close_request w in
  in_flight w = true
  /\ has_immediate_true (objections close_request w) = true
  /\ get _lastShutdownReasonKey WORKSPACE (_storageService (service w')) = None
  /\ willShutdown (service w') = Some false
  /\ ipcSent (service w') = [("vscode:cancel1", 1%Z)]
  /\ _onShutdown (service w') = [].
Proof.
  intros w w'. split; [reflexivity|]. split; [reflexivity|].
  exact (immediate_veto_in_any_world text_of_error close_request w eq_refl).
Defined.

Lemma no_objection_in_any_world_witness :
  let w := beforeUnload text_of_error reload_request (window [defers_on_reload]) in
  let w' := beforeUnload text_of_error close_request w in
  in_flight w = true
  /\ objections close_request w = []
  /\ ipcSent (service w') = [("vscode:ok1", 1%Z)]
  /\ _onShutdown (service w') = [CLOSE].
Proof.
  intros w w'. split; [reflexivity|]. split; [reflexivity|].
  destruct (no_objection_in_any_world text_of_error close_request w eq_refl)
    as (_ & _ & Hs & Hf & _).
  split; [exact Hs|exact Hf].
Defined.


Lemma reports_around_immediate_true_witness :
  let w := window [defers_then_objects] in
  let sched := [(2, Rejected "late"); (1, Rejected "early")] in
  let w' := request_run text_of_error close_request sched w in
  idle w
  /\ objections close_request w = [Deferred 1] ++ Immediate true :: [Deferred 2]
  /\ has_immediate_true [Deferred 1] = false
  /\ current_verdict w' = Some (Fulfilled true)
  /\ _messageService (service w') ≡ₚ [(Error, "early")].
Proof.
  intros w sched w'. split; [apply window_idle|]. split; [reflexivity|]. split; [reflexivity|].
  exact (reports_around_immediate_true text_of_error close_request sched w
           [Deferred 1] [Deferred 2] (window_idle _) eq_refl eq_refl).
Defined.

Lemma unsettled_objection_stalls_witness :
  let w := window [defers_twice] in
  let w' := request_run text_of_error close_request [(1, Fulfilled true)] w in
  idle w
  /\ has_immediate_true (objections close_request w) = false
  /\ Deferred 2 ∈ objections close_request w
  /\ settlements w' !! 2 = None
  /\ current_verdict w' = None
  /\ ipcSent (service w') = [].
Proof.
  intros w w'.
  assert (Deferred 2 ∈ objections close_request w) as Hin.
  { apply list_elem_of_In. right. right. left. reflexivity. }
  split; [apply window_idle|]. split; [reflexivity|]. split; [exact Hin|].
  split; [reflexivity|].
  destruct (unsettled_objection_stalls text_of_error close_request [(1, Fulfilled true)] w 2
              (window_idle _) eq_refl Hin eq_refl) as (Hv & Hs & _).
  split; [exact Hv|exact Hs].
Defined.

Lemma outcome_independent_of_order_witness :
  let w := window [defers_twice] in
  let sched := [(1, Rejected "disk full"); (2, Fulfilled false)] in
  let sched' := [(2, Fulfilled false); (1, Rejected "disk full")] in
  idle w
  /\ NoDup sched.*1
  /\ sched ≡ₚ sched'
  /\ current_verdict (request_run text_of_error close_request sched w)
     = current_verdict (request_run text_of_error close_request sched' w)
  /\ ipcSent (service (request_run text_of_error close_request sched w))
     = ipcSent (service (request_run text_of_error close_request sched' w)).
Proof.
  intros w sched sched'.
  assert (NoDup sched.*1) as Hnd.
  { apply (bool_decide_unpack _). reflexivity. }
  assert (sched ≡ₚ sched') as Hp by apply perm_swap.
  split; [apply window_idle|]. split; [exact Hnd|]. split; [exact Hp|].
  destruct (outcome_independent_of_order text_of_error close_request sched sched' w
              (window_idle _) Hnd Hp) as (Hv & _ & _ & Hs & _).
  split; [exact Hv|exact Hs].
Defined.

Lemma requests_in_sequence_witness :
  let w := window [objects_to_close] in
  let w1 := request_run text_of_error close_request [] w in
  let w2 := request_run text_of_error reload_request [] w1 in
  idle w
  /\ forallb (objection_settled (settlements w1)) (objections close_request w) = true
  /\ current_verdict w1 = Some (Fulfilled true)
  /\ current_verdict w2 = Some (Fulfilled false)
  /\ ipcSent (service w2) = [("vscode:cancel1", 1%Z); ("vscode:ok2", 1%Z)]
  /\ willShutdown (service w2) = Some true.
Proof.
  intros w w1 w2. split; [apply window_idle|]. split; [reflexivity|].
  split; [reflexivity|]. split; [reflexivity|].
  destruct (requests_in_sequence text_of_error close_request [] reload_request [] w true false
              (window_idle _) eq_refl eq_refl eq_refl) as (Hs & Hf & _).
  split; [exact Hs|exact Hf].
Defined.


Lemma later_veto_clears_earlier_reason_witness :
  let w := window [defers_on_reload; objects_to_close] in
  let w' := run text_of_error
              (BeforeUnload reload_request :: BeforeUnload close_request
               :: settles [(1, Fulfilled false)]) w in
  has_immediate_true (objections close_request w) = true
  /\ _onShutdown (service w') = [RELOAD]
  /\ get _lastShutdownReasonKey WORKSPACE (_storageService (service w')) = None
  /\ startupKind (constructor (JsError := string) 2 (_storageService (service w'))) = NewWindow.
Proof.
  intros w w'. split; [reflexivity|]. split; [reflexivity|].
  exact (later_veto_clears_earlier_reason text_of_error reload_request close_request
           [(1, Fulfilled false)] w 2 eq_refl).
Defined.
